(** * normalize-unicode-filename: a shallow embedding of [main.go]

    The program walks the paths given on the command line, normalises the
    leaf name of every entry to a Unicode normalisation form and renames the
    entry when the leaf changes.  The definitions come in three layers:

    - [Path]: the parts of Go's [strings] and [path/filepath] packages the
      program calls ([Split], [Join], [Clean], [ToUpper]), for the Unix
      separator;
    - the program itself ([normalize], [process], [run]) over an abstract
      operating system ([OS]) and an abstract Unicode library ([Unicode]);
    - [Sample]: a small concrete file system and Unicode fragment on which
      the program can be run.

    They are followed by the facts about the path functions ([PathFacts]),
    the properties of the program, and runs on the sample. *)

From Stdlib Require Import ZArith Ascii String List Bool Lia.
From stdpp Require Import base option gmap strings list fin_maps.

Local Open Scope string_scope.
Local Open Scope list_scope.

(** ** Go's string and path functions (Unix) *)

Module Path.

(** [filepath.Separator] and the program's [sep]. *)
Definition Separator : ascii := "/"%char.
Definition sep : string := String Separator "".

Definition IsPathSeparator (c : ascii) : bool := Ascii.eqb c Separator.

(** [strings.Join]. *)
Fixpoint strings_Join (elems : list string) (s : string) : string :=
  match elems with
  | [] => ""
  | [e] => e
  | e :: rest => e +:+ s +:+ strings_Join rest s
  end.

(** The path elements of a string: the pieces between separators, empty
    pieces included.  [Clean] reads its argument element by element. *)
Definition push_char (c : ascii) (es : list string) : list string :=
  match es with
  | [] => [String c ""]
  | e :: es' => String c e :: es'
  end.

Fixpoint elements (path : string) : list string :=
  match path with
  | "" => [""]
  | String c rest =>
      if IsPathSeparator c then "" :: elements rest
      else push_char c (elements rest)
  end.

Definition rooted (path : string) : bool :=
  match path with
  | String c _ => IsPathSeparator c
  | "" => false
  end.

(** The loop of [filepath.Clean].  [out] is the output buffer as a stack of
    elements, last written first.  An empty element and [.] are dropped;
    [..] removes the last written element when there is one to remove
    ([out.w > dotdot]), is appended when the path is not rooted, and is
    dropped at the root; any other element is appended. *)
Fixpoint clean_elems (is_rooted : bool) (out : list string) (es : list string)
  : list string :=
  match es with
  | [] => out
  | e :: es' =>
      if String.eqb e "" then clean_elems is_rooted out es'
      else if String.eqb e "." then clean_elems is_rooted out es'
      else if String.eqb e ".." then
        match out with
        | o :: out' =>
            if String.eqb o ".." then clean_elems is_rooted (".." :: out) es'
            else clean_elems is_rooted out' es'
        | [] =>
            if is_rooted then clean_elems is_rooted [] es'
            else clean_elems is_rooted [".."] es'
        end
      else clean_elems is_rooted (e :: out) es'
  end.

(** The buffer as a string; an empty buffer is [.] (or the root). *)
Definition render (is_rooted : bool) (out : list string) : string :=
  match out with
  | [] => if is_rooted then sep else "."
  | _ => (if is_rooted then sep else "") +:+ strings_Join (rev out) sep
  end.

Definition stack (path : string) : list string :=
  clean_elems (rooted path) [] (elements path).

(** [filepath.Clean]. *)
Definition Clean (path : string) : string :=
  if String.eqb path "" then "." else render (rooted path) (stack path).

(** [filepath.Join]: the elements from the first non-empty one on are joined
    with the separator and cleaned; all empty gives the empty string. *)
Fixpoint Join (elem : list string) : string :=
  match elem with
  | [] => ""
  | e :: rest =>
      if String.eqb e "" then Join rest else Clean (strings_Join elem sep)
  end.

(** [filepath.Split]: the path is cut after its last separator. *)
Fixpoint Split (path : string) : string * string :=
  match path with
  | "" => ("", "")
  | String c rest =>
      let '(dir, file) := Split rest in
      if String.eqb dir "" then
        if IsPathSeparator c then (String c "", file) else ("", String c file)
      else (String c dir, file)
  end.

(** [strings.ToUpper] takes a byte-wise path for ASCII-only strings. *)
Definition is_ascii_byte (c : ascii) : bool := (nat_of_ascii c <? 128)%nat.

Fixpoint isASCII (s : string) : bool :=
  match s with
  | "" => true
  | String c rest => is_ascii_byte c && isASCII rest
  end.

Definition upper_byte (c : ascii) : ascii :=
  let n := nat_of_ascii c in
  if ((97 <=? n) && (n <=? 122))%nat then ascii_of_nat (n - 32) else c.

Fixpoint map_bytes (f : ascii -> ascii) (s : string) : string :=
  match s with
  | "" => ""
  | String c rest => String (f c) (map_bytes f rest)
  end.

(** A byte or a name free of separators; a plain name is what a directory
    listing returns: not empty, not [.] or [..], no separator. *)
Fixpoint sep_free (s : string) : bool :=
  match s with
  | "" => true
  | String c rest => negb (IsPathSeparator c) && sep_free rest
  end.

Definition plain (s : string) : bool :=
  sep_free s && negb (String.eqb s "") && negb (String.eqb s ".")
  && negb (String.eqb s "..").

(** The buffers [Clean] can leave: plain names written after a run of
    [..], and that run only when the path is not rooted. *)
Fixpoint cleaned (is_rooted : bool) (out : list string) : Prop :=
  match out with
  | [] => True
  | o :: out' =>
      (plain o = true /\ cleaned is_rooted out')
      \/ (o = ".." /\ is_rooted = false /\ Forall (eq "..") out')
  end.

End Path.

(** ** The program's collaborators *)

(** Go's [error] values are carried as their message. *)
Definition error := string.

(** [os.FileInfo], of which the program reads [IsDir]. *)
Record FileInfo := { IsDir : bool }.

(** The calls into package [os] and [filepath.Glob], over a file system of
    type [FS].  Only [os.Rename] returns a new file system. *)
Class OS (FS : Type) := {
  os_Stat : FS -> string -> error + FileInfo;
  os_Rename : FS -> string -> string -> error + FS;
  os_ReadDir : FS -> string -> error + list string;
  filepath_Glob : FS -> string -> error + list string
}.

(** [norm.Form] of golang.org/x/text/unicode/norm. *)
Inductive Form := NFC | NFD | NFKC | NFKD.

(** The Unicode tables behind [norm.Form.String] and behind
    [strings.Map(unicode.ToUpper, _)], the path [strings.ToUpper] takes for
    a string with a byte outside ASCII. *)
Class Unicode := {
  norm_String : Form -> string -> string;
  unicode_ToUpper : string -> string
}.

(** ** Program state *)

(** Command line flags read by [process]. *)
Record Flags := {
  recurse : bool;
  quiet : bool;
  dryrun : bool;
  printBoth : bool
}.

(** The package variables written at run time, the file system and the
    standard output (one string for each [Printf]). *)
Record State (FS : Type) := {
  fs : FS;
  formName : string;
  formCode : Form;
  fileCount : Z;
  dirFixed : gmap string string;
  stdout : list string
}.
Arguments fs {FS} _.
Arguments formName {FS} _.
Arguments formCode {FS} _.
Arguments fileCount {FS} _.
Arguments dirFixed {FS} _.
Arguments stdout {FS} _.

(** How a call ended: it returned an [error] (or [nil]), or the model ran
    out of recursion depth. *)
Inductive outcome := OutOfFuel | Returned (err : option error).

(** Go's [int] is 64 bits wide on the supported platforms. *)
Definition wrap_int (z : Z) : Z :=
  ((z + 2 ^ 63) mod 2 ^ 64 - 2 ^ 63)%Z.

Definition nl : string := String (ascii_of_nat 10) "".

Section Program.
Context {FS : Type} {os : OS FS} {uni : Unicode}.

Local Abbreviation St := (State FS).

Definition set_fs (x : FS) (st : St) : St :=
  {| fs := x; formName := formName st; formCode := formCode st;
     fileCount := fileCount st; dirFixed := dirFixed st; stdout := stdout st |}.

Definition set_formName (x : string) (st : St) : St :=
  {| fs := fs st; formName := x; formCode := formCode st;
     fileCount := fileCount st; dirFixed := dirFixed st; stdout := stdout st |}.

Definition set_formCode (x : Form) (st : St) : St :=
  {| fs := fs st; formName := formName st; formCode := x;
     fileCount := fileCount st; dirFixed := dirFixed st; stdout := stdout st |}.

Definition set_fileCount (x : Z) (st : St) : St :=
  {| fs := fs st; formName := formName st; formCode := formCode st;
     fileCount := x; dirFixed := dirFixed st; stdout := stdout st |}.

Definition set_dirFixed (x : gmap string string) (st : St) : St :=
  {| fs := fs st; formName := formName st; formCode := formCode st;
     fileCount := fileCount st; dirFixed := x; stdout := stdout st |}.

Definition Printf (line : string) (st : St) : St :=
  {| fs := fs st; formName := formName st; formCode := formCode st;
     fileCount := fileCount st; dirFixed := dirFixed st;
     stdout := stdout st ++ [line] |}.

(** [strings.ToUpper]. *)
Definition strings_ToUpper (s : string) : string :=
  if Path.isASCII s then Path.map_bytes Path.upper_byte s
  else unicode_ToUpper s.

(** [normalize]: [formCode.String(s)]. *)
Definition normalize (st : St) (s : string) : string :=
  norm_String (formCode st) s.

(** Reading a Go map gives the zero value on a miss. *)
Definition map_index (m : gmap string string) (k : string) : string :=
  default "" (m !! k).

(** Lines 73 to 77 of [process]: the directory a renamed entry is put in. *)
Definition fixedDir_of (m : gmap string string) (dir : string) : string :=
  let fixedDir := map_index m dir in
  if String.eqb fixedDir "" then dir else fixedDir.

(** Lines 63 to 96 of [process]: the entry itself.  The result is the state
    and either the error of [os.Rename] or the pair [(newName, actualName)]
    with which the function goes on. *)
Definition rename_entry (fl : Flags) (originalName : string) (st : St)
  : St * (error + string * string) :=
  let '(dir, fname) := Path.Split originalName in
  let actualName := originalName in
  let newf := normalize st fname in
  let newName := Path.Join [dir; newf] in
  if negb (String.eqb newf fname) then
    let st := set_fileCount (wrap_int (fileCount st + 1)) st in
    let fixedDir := fixedDir_of (dirFixed st) dir in
    let newName := Path.Join [fixedDir; newf] in
    let st :=
      if negb (quiet fl) then
        if printBoth fl
        then Printf (originalName +:+ nl +:+ "  -> " +:+ newName +:+ nl) st
        else Printf (newName +:+ nl) st
      else st in
    if negb (dryrun fl) then
      match os_Rename (fs st) originalName newName with
      | inl err => (st, inl err)
      | inr fs' => (set_fs fs' st, inr (newName, newName))
      end
    else (st, inr (newName, actualName))
  else (st, inr (newName, actualName)).

(** Lines 99 to 101: a directory is entered into [dirFixed]. *)
Definition dir_key (name : string) : string := Path.Join [name; ""] +:+ Path.sep.

Definition record_dir (originalName newName : string) (st : St) : St :=
  set_dirFixed (<[dir_key originalName := dir_key newName]> (dirFixed st)) st.

(** Lines 107 to 113: the loop over the directory's entries, for a given
    recursive call [rec]. *)
Fixpoint range_children (rec : string -> St -> St * outcome)
    (actualName : string) (d : list string) (st : St) : St * outcome :=
  match d with
  | [] => (st, Returned None)
  | f :: d' =>
      let subf := Path.Join [actualName; f] in
      match rec subf st with
      | (st', Returned None) => range_children rec actualName d' st'
      | (st', stop) => (st', stop)
      end
  end.

(** [process].  Each call uses one unit of [fuel]. *)
Fixpoint process (fuel : nat) (fl : Flags) (originalName : string) (st : St)
  : St * outcome :=
  match fuel with
  | O => (st, OutOfFuel)
  | S fuel' =>
      match os_Stat (fs st) originalName with
      | inl err => (st, Returned (Some err))
      | inr fInfo =>
          match rename_entry fl originalName st with
          | (st, inl err) => (st, Returned (Some err))
          | (st, inr (newName, actualName)) =>
              if IsDir fInfo then
                let st := record_dir originalName newName st in
                if recurse fl then
                  match os_ReadDir (fs st) actualName with
                  | inl e => (st, Returned (Some e))
                  | inr d => range_children (process fuel' fl) actualName d st
                  end
                else (st, Returned None)
              else (st, Returned None)
          end
      end
  end.

(** The [switch] of [run]. *)
Definition select_form (name : string) : option Form :=
  if String.eqb name "NFC" || String.eqb name "WIN" then Some NFC
  else if String.eqb name "NFD" || String.eqb name "MAC" then Some NFD
  else if String.eqb name "NFKC" then Some NFKC
  else if String.eqb name "NFKD" then Some NFKD
  else None.

(** Lines 149 to 155: the names a pattern expands to. *)
Fixpoint range_names (fuel : nat) (fl : Flags) (l : list string) (st : St)
  : St * outcome :=
  match l with
  | [] => (st, Returned None)
  | name :: l' =>
      match process fuel fl name st with
      | (st', Returned None) => range_names fuel fl l' st'
      | (st', stop) => (st', stop)
      end
  end.

(** Lines 139 to 156: the patterns of the command line. *)
Fixpoint range_args (fuel : nat) (fl : Flags) (args : list string) (st : St)
  : St * outcome :=
  match args with
  | [] => (st, Returned None)
  | pattern :: args' =>
      match filepath_Glob (fs st) pattern with
      | inl err => (st, Returned (Some err))
      | inr l =>
          match range_names fuel fl l st with
          | (st', Returned None) => range_args fuel fl args' st'
          | (st', stop) => (st', stop)
          end
      end
  end.

(** [run], with [flag.Args()] as [args]. *)
Definition run (fuel : nat) (fl : Flags) (args : list string) (st : St)
  : St * outcome :=
  let st := set_formName (strings_ToUpper (formName st)) st in
  match select_form (formName st) with
  | None => (st, Returned (Some "invalid normalization form"))
  | Some f => range_args fuel fl args (set_formCode f st)
  end.

(** Lines 70 and 79 to 95 on their own: the entry is counted, printed and
    renamed to a given [newName]. *)
Definition rename_to (fl : Flags) (originalName newName : string) (st : St)
  : St * (error + string * string) :=
  let st := set_fileCount (wrap_int (fileCount st + 1)) st in
  let st :=
    if negb (quiet fl) then
      if printBoth fl
      then Printf (originalName +:+ nl +:+ "  -> " +:+ newName +:+ nl) st
      else Printf (newName +:+ nl) st
    else st in
  if negb (dryrun fl) then
    match os_Rename (fs st) originalName newName with
    | inl err => (st, inl err)
    | inr fs' => (set_fs fs' st, inr (newName, newName))
    end
  else (st, inr (newName, originalName)).

(** The loop of lines 107 to 113 over the listed names, for a given visit
    of one name. *)
Fixpoint visit_children (visit : string -> St -> St * outcome)
    (d : list string) (st : St) : St * outcome :=
  match d with
  | [] => (st, Returned None)
  | f :: d' =>
      match visit f st with
      | (st', Returned None) => visit_children visit d' st'
      | (st', stop) => (st', stop)
      end
  end.

(** What is claimed of an entry [f] listed in a directory that is found at
    [actualName] and has the new path [newName]: the entry is processed as
    [process] does it, but its new path is [Join(newName, normalize(f))]
    when its name changes (and its own path when it does not), with no
    lookup in [dirFixed]. *)
Definition process_below (fuel : nat) (fl : Flags)
    (newName actualName f : string) (st : St) : St * outcome :=
  match fuel with
  | O => (st, OutOfFuel)
  | S fuel' =>
      let subf := Path.Join [actualName; f] in
      match os_Stat (fs st) subf with
      | inl err => (st, Returned (Some err))
      | inr fInfo =>
          match
            (if String.eqb (normalize st f) f then (st, inr (subf, subf))
             else rename_to fl subf (Path.Join [newName; normalize st f]) st)
          with
          | (st, inl err) => (st, Returned (Some err))
          | (st, inr (newName', actualName')) =>
              if IsDir fInfo then
                let st := record_dir subf newName' st in
                if recurse fl then
                  match os_ReadDir (fs st) actualName' with
                  | inl e => (st, Returned (Some e))
                  | inr d =>
                      range_children (process fuel' fl) actualName' d st
                  end
                else (st, Returned None)
              else (st, Returned None)
          end
      end
  end.

(** A [dirFixed] in which a directory is recorded under another name only
    if the last element of its cleaned path is a name the form changes. *)
Definition changes_only (form : Form) (m : gmap string string) : Prop :=
  forall k v, m !! k = Some v -> v <> k ->
  forall p f out, p <> "" -> dir_key p = k -> Path.stack p = f :: out ->
  norm_String form f <> f.

(** A key that no path below [q] is recorded under: the cleaned elements of
    [q] are not the first elements of a path with that key. *)
Definition outside (q k : string) : Prop :=
  forall p', p' <> "" -> dir_key p' = k ->
  ~ Path.stack q `suffix_of` Path.stack p'.

(** A file system whose directory listings hold plain names only. *)
Definition lists_plain (x : FS) : Prop :=
  forall q l, os_ReadDir x q = inr l -> Forall (fun c => Path.plain c = true) l.

(** The selector values [run] accepts, with the form each selects. *)
Definition form_names : list (string * Form) :=
  [("NFC", NFC); ("WIN", NFC); ("NFD", NFD); ("MAC", NFD);
   ("NFKC", NFKC); ("NFKD", NFKD)].

(** Two selector strings that differ in the case of ASCII letters only. *)
Definition is_upper_byte (c : ascii) : bool :=
  ((65 <=? nat_of_ascii c) && (nat_of_ascii c <=? 90))%nat.

Definition same_letter (a b : ascii) : bool :=
  Ascii.eqb a b
  || (is_upper_byte a && (nat_of_ascii b =? nat_of_ascii a + 32)%nat)
  || (is_upper_byte b && (nat_of_ascii a =? nat_of_ascii b + 32)%nat).

Fixpoint all_upper (v : string) : bool :=
  match v with
  | "" => true
  | String b v' => is_upper_byte b && all_upper v'
  end.

Fixpoint eq_fold (s t : string) : bool :=
  match s, t with
  | "", "" => true
  | String a s', String b t' => same_letter a b && eq_fold s' t'
  | _, _ => false
  end.

End Program.

(** ** [init] and [main] *)

(** [init]: the default of [formName], from [runtime.GOOS]. *)
Definition init_formName (goos : string) : string :=
  if String.eqb goos "windows" then "NFC"
  else if String.eqb goos "darwin" then "NFD"
  else "NFC".

(** What [flag.Parse] leaves behind: the value of [-form] (or [-f]) when it
    is given, the boolean flags, and [flag.Args()]. *)
Record CommandLine := {
  form_option : option string;
  flags_given : Flags;
  positional : list string
}.

(** How [flag.Parse] ends (line 193, with [flag.ExitOnError]): it rejects
    the command line, writes its message and the usage text and ends the
    program with status 2; or it meets [-h] or [-help], writes the usage
    text and ends the program with status 0; or it returns.  In the first
    two cases [formName] holds the value of a [-form] before the place
    where parsing stopped, if there is one. *)
Inductive parse :=
| ParseFailed (text : string) (form_so_far : option string)
| HelpAsked (form_so_far : option string)
| Parsed (cl : CommandLine).

(** What [main] writes to the error stream: the usage text of [flag.Usage],
    or a line. *)
Inductive message := UsageText | Line (text : string).

(** A counter in the range of [int]. *)
Definition in_int_range (z : Z) : Prop := wrap_int z = z.

Section Main.
Context {FS : Type} {os : OS FS} {uni : Unicode}.

(** The package variables when [main] calls [run]. *)
Definition start (goos : string) (cl : CommandLine) (x : FS) : State FS :=
  {| fs := x;
     formName := default (init_formName goos) (form_option cl);
     formCode := NFC; fileCount := 0; dirFixed := ∅; stdout := [] |}.

(** The package variables when [flag.Parse] ends the program. *)
Definition stopped (goos : string) (form_so_far : option string) (x : FS)
  : State FS :=
  {| fs := x;
     formName := default (init_formName goos) form_so_far;
     formCode := NFC; fileCount := 0; dirFixed := ∅; stdout := [] |}.

(** [main]: the final state, the error stream and the exit status (none
    when the model ran out of recursion depth). *)
Definition main (fuel : nat) (goos : string) (pr : parse) (x : FS)
  : State FS * list message * option Z :=
  match pr with
  | ParseFailed text form_so_far =>
      (stopped goos form_so_far x, [Line (text +:+ nl); UsageText], Some 2%Z)
  | HelpAsked form_so_far =>
      (stopped goos form_so_far x, [UsageText], Some 0%Z)
  | Parsed cl =>
      let st := start goos cl x in
      match positional cl with
      | [] => (st, [UsageText], Some 0%Z)
      | _ =>
          match run fuel (flags_given cl) (positional cl) st with
          | (st', Returned (Some err)) => (st', [Line (err +:+ nl)], Some 1%Z)
          | (st', Returned None) => (st', [], Some 0%Z)
          | (st', OutOfFuel) => (st', [], None)
          end
      end
  end.

(** A state without its output. *)
Definition mute (st : State FS) : State FS :=
  {| fs := fs st; formName := formName st; formCode := formCode st;
     fileCount := fileCount st; dirFixed := dirFixed st; stdout := [] |}.

(** Two states of which the second has the output of the first followed by
    new messages, and a counter that has gone up by their number. *)
Definition counted (a b : State FS) : Prop :=
  in_int_range (fileCount a) ->
  in_int_range (fileCount b)
  /\ exists lines, stdout b = stdout a ++ lines
     /\ fileCount b = wrap_int (fileCount a + Z.of_nat (length lines)).

End Main.

(** The flags with another [dryrun]. *)
Definition set_dryrun (b : bool) (fl : Flags) : Flags :=
  {| recurse := recurse fl; quiet := quiet fl; dryrun := b;
     printBoth := printBoth fl |}.

(** A [dirFixed] without an empty value. *)
Definition no_empty_value (m : gmap string string) : Prop :=
  forall k v, m !! k = Some v -> v <> "".


(** ** A concrete file system and Unicode fragment

    The file system is a table of the entries below the working directory:
    the cleaned relative path of each, and whether it is a directory.  It
    has directories and regular files, no links, and resolves paths
    lexically. *)

Module Sample.

Definition Table := list (string * bool).

Definition find_entry (t : Table) (p : string) : option bool :=
  if String.eqb p "." then Some true
  else snd <$> List.find (fun e => String.eqb (fst e) p) t.

Definition no_entry (op p : string) : error :=
  op +:+ " " +:+ p +:+ ": no such file or directory".

Definition Stat (t : Table) (name : string) : error + FileInfo :=
  if String.eqb name "" then inl (no_entry "stat" name)
  else match find_entry t (Path.Clean name) with
       | Some d => inr {| IsDir := d |}
       | None => inl (no_entry "stat" name)
       end.

(** The directory part under which the children of [p] are filed. *)
Definition child_prefix (p : string) : string :=
  if String.eqb p "." then "" else p +:+ Path.sep.

Fixpoint insert_sorted (x : string) (l : list string) : list string :=
  match l with
  | [] => [x]
  | y :: l' => if String.leb x y then x :: l else y :: insert_sorted x l'
  end.

Definition children (t : Table) (p : string) : list string :=
  foldr insert_sorted []
    (omap (fun e => let '(d, f) := Path.Split (fst e) in
                    if String.eqb d (child_prefix p) then Some f else None) t).

(** [os.ReadDir] returns the entries sorted by name. *)
Definition ReadDir (t : Table) (name : string) : error + list string :=
  if String.eqb name "" then inl (no_entry "open" name)
  else match find_entry t (Path.Clean name) with
       | Some true => inr (children t (Path.Clean name))
       | Some false => inl ("open " +:+ name +:+ ": not a directory")
       | None => inl (no_entry "open" name)
       end.

Fixpoint strip_prefix (pre s : string) : option string :=
  match pre, s with
  | "", _ => Some s
  | String a pre', String b s' =>
      if Ascii.eqb a b then strip_prefix pre' s' else None
  | _, "" => None
  end.

(** The path of an entry after [src] has moved to [dst]. *)
Definition moved (src dst p : string) : string :=
  if String.eqb p src then dst
  else match strip_prefix (src +:+ Path.sep) p with
       | Some rest => dst +:+ Path.sep +:+ rest
       | None => p
       end.

Definition rename_error (old new why : string) : error :=
  "rename " +:+ old +:+ " " +:+ new +:+ ": " +:+ why.

(** The directory an entry is filed in. *)
Definition parent_of (p : string) : string :=
  let d := fst (Path.Split p) in
  if String.eqb d "" then "." else Path.Clean d.

Definition move (src dst : string) (t : Table) : Table :=
  map (fun e => (moved src dst (fst e), snd e))
    (filter (fun e => fst e ≠ dst) t).

(** [os.Rename].  Go refuses a new name that is an existing directory,
    unless it is the old entry under another spelling; otherwise the system
    call decides: a file replaces a file, and the new parent has to be a
    directory outside the entry that moves. *)
Definition Rename (t : Table) (old new : string) : error + Table :=
  let src := Path.Clean old in
  let dst := Path.Clean new in
  if String.eqb old "" || String.eqb new "" then
    inl (rename_error old new "no such file or directory")
  else
    match find_entry t src, find_entry t dst with
    | None, _ => inl (rename_error old new "no such file or directory")
    | Some _, Some true =>
        if String.eqb new old || negb (String.eqb src dst)
        then inl (rename_error old new "file exists")
        else inr t
    | Some src_dir, dst_entry =>
        if String.eqb src dst then inr t
        else if String.eqb src "." then
          inl (rename_error old new "device or resource busy")
        else if bool_decide (is_Some (strip_prefix (src +:+ Path.sep) dst)) then
          inl (rename_error old new "invalid argument")
        else
          match find_entry t (parent_of dst) with
          | None => inl (rename_error old new "no such file or directory")
          | Some false => inl (rename_error old new "not a directory")
          | Some true =>
              if src_dir && bool_decide (dst_entry = Some false)
              then inl (rename_error old new "not a directory")
              else inr (move src dst t)
          end
    end.

Fixpoint hasMeta (s : string) : bool :=
  match s with
  | "" => false
  | String c rest =>
      Ascii.eqb c "*" || Ascii.eqb c "?" || Ascii.eqb c "[" || Ascii.eqb c "\"
      || hasMeta rest
  end.

(** [filepath.Glob]: a pattern without a metacharacter is the name itself
    when it exists; of the patterns with one, the table answers [*]. *)
Definition Glob (t : Table) (pattern : string) : error + list string :=
  if negb (hasMeta pattern) then
    match Stat t pattern with
    | inr _ => inr [pattern]
    | inl _ => inr []
    end
  else if String.eqb pattern "*" then inr (children t ".")
  else inl "pattern outside the table's fragment".

#[global] Instance table_os : OS Table := {
  os_Stat := Stat;
  os_Rename := Rename;
  os_ReadDir := ReadDir;
  filepath_Glob := Glob
}.

(** The bytes of U+0301 (combining acute accent), of "e" followed by it, and
    of U+00E9 and U+00C9 (e and E with acute). *)
Definition byte (n : nat) : ascii := ascii_of_nat n.
Definition acute : string := String (byte 204) (String (byte 129) "").
Definition e_decomposed : string := String "e" acute.
Definition e_composed : string := String (byte 195) (String (byte 169) "").
Definition E_composed : string := String (byte 195) (String (byte 137) "").

(** Composition and decomposition of that one pair. *)
Fixpoint compose (s : string) : string :=
  match s with
  | "" => ""
  | String a s' =>
      match s' with
      | String b (String c rest) =>
          if Ascii.eqb a "e" && Ascii.eqb b (byte 204) && Ascii.eqb c (byte 129)
          then e_composed +:+ compose rest
          else String a (compose s')
      | _ => String a (compose s')
      end
  end.

Fixpoint decompose (s : string) : string :=
  match s with
  | "" => ""
  | String a s' =>
      match s' with
      | String b rest =>
          if Ascii.eqb a (byte 195) && Ascii.eqb b (byte 169)
          then e_decomposed +:+ decompose rest
          else String a (decompose s')
      | _ => String a (decompose s')
      end
  end.

Fixpoint upper (s : string) : string :=
  match s with
  | "" => ""
  | String a s' =>
      match s' with
      | String b rest =>
          if Ascii.eqb a (byte 195) && Ascii.eqb b (byte 169)
          then E_composed +:+ upper rest
          else String (Path.upper_byte a) (upper s')
      | _ => String (Path.upper_byte a) (upper s')
      end
  end.

#[global] Instance fragment : Unicode := {
  norm_String f s :=
    match f with
    | NFC | NFKC => compose s
    | NFD | NFKD => decompose s
    end;
  unicode_ToUpper := upper
}.

(** The state in which [main] calls [run]. *)
Definition initial (t : Table) (form : string) : State Table :=
  {| fs := t; formName := form; formCode := NFC; fileCount := 0;
     dirFixed := ∅; stdout := [] |}.

Definition flags (r q d b : bool) : Flags :=
  {| recurse := r; quiet := q; dryrun := d; printBoth := b |}.

(** A directory with a decomposed name, in it a directory [x], in it a file
    with a decomposed name. *)
Definition tree : Table :=
  [ (e_decomposed, true);
    (e_decomposed +:+ "/x", true);
    (e_decomposed +:+ "/x/" +:+ e_decomposed +:+ ".txt", false) ].

(** The same directory with two files, of which the second has a
    decomposed name. *)
Definition tree2 : Table :=
  [ (e_decomposed, true);
    (e_decomposed +:+ "/a.txt", false);
    (e_decomposed +:+ "/" +:+ e_decomposed +:+ ".txt", false) ].

(** A directory with a decomposed name next to a file with the composed
    name: the directory cannot be renamed. *)
Definition clash : Table :=
  [ (e_decomposed, true); (e_composed, false); ("z", false) ].

(** The table under two other systems: one that refuses every rename, one
    that cannot list a directory. *)
Definition read_only_os : OS Table := {|
  os_Stat := Stat;
  os_Rename := fun _ old new => inl (rename_error old new "read-only file system");
  os_ReadDir := ReadDir;
  filepath_Glob := Glob
|}.

Definition unlistable_os : OS Table := {|
  os_Stat := Stat;
  os_Rename := Rename;
  os_ReadDir := fun _ name => inl ("open " +:+ name +:+ ": permission denied");
  filepath_Glob := Glob
|}.

End Sample.

Example Clean_samples :
  map Path.Clean ["a//b/./c/.."; "/../a"; "../../x"; ""; "a/.."; "/"; "./d"; "a/b/"]
  = ["a/b"; "/a"; "../../x"; "."; "."; "/"; "d"; "a/b"].
Proof. reflexivity. Qed.

Example Join_samples :
  map Path.Join [["a"; ""]; [""; "b"]; [""; ""]; ["a/"; "b"]; ["/"; ""]; ["d/x/"; "F"]]
  = ["a"; "b"; ""; "a/b"; "/"; "d/x/F"].
Proof. reflexivity. Qed.

Example Split_samples :
  map Path.Split ["d/x/f"; "f"; "d/"; "/"; ""; "/a"]
  = [("d/x/", "f"); ("", "f"); ("d/", ""); ("/", ""); ("", ""); ("/", "a")].
Proof. reflexivity. Qed.

(** ** Facts about the path functions *)

Module PathFacts.
Import Path.
#[local] Arguments String.append !_ _ / : simpl nomatch.

Lemma sapp_nil_r (s : string) : s +:+ "" = s.
Proof. induction s as [|c s IH]; simpl; [reflexivity | f_equal; exact IH]. Qed.

Lemma sapp_assoc (a b c : string) : (a +:+ b) +:+ c = a +:+ b +:+ c.
Proof. induction a as [|x a IH]; simpl; [reflexivity | f_equal; exact IH]. Qed.

Lemma sapp_eq_nil (a b : string) : a +:+ b = "" -> a = "" /\ b = "".
Proof. destruct a; simpl; [auto | discriminate]. Qed.

Lemma elements_nonempty (p : string) : elements p <> [].
Proof.
  induction p as [|c p IH]; simpl; [discriminate |].
  destruct (IsPathSeparator c); [discriminate |].
  destruct (elements p); [contradiction | discriminate].
Qed.

Lemma push_char_app (c : ascii) (l1 l2 : list string) :
  l1 <> [] -> push_char c (l1 ++ l2) = push_char c l1 ++ l2.
Proof. destruct l1; [contradiction | reflexivity]. Qed.

(** Cutting at a separator cuts the list of elements. *)
Lemma elements_app_sep (a b : string) :
  elements (a +:+ sep +:+ b) = elements a ++ elements b.
Proof.
  change (sep +:+ b) with (String Separator b).
  induction a as [|c a IH]; simpl.
  - reflexivity.
  - rewrite IH. destruct (IsPathSeparator c); [reflexivity |].
    apply push_char_app, elements_nonempty.
Qed.

Lemma elements_sep_free (f : string) : sep_free f = true -> elements f = [f].
Proof.
  induction f as [|c f IH]; simpl; [reflexivity |].
  intros [Hc Hf]%andb_prop. apply negb_true_iff in Hc. rewrite Hc.
  now rewrite (IH Hf).
Qed.

Lemma elements_all_sep_free (p : string) :
  Forall (fun e => sep_free e = true) (elements p).
Proof.
  induction p as [|c p IH]; simpl.
  - repeat constructor.
  - destruct (IsPathSeparator c) eqn:Hc.
    + constructor; [reflexivity | exact IH].
    + destruct (elements p) as [|e es]; simpl.
      * repeat constructor. simpl. now rewrite Hc.
      * inversion IH; subst. constructor; [|assumption].
        simpl. now rewrite Hc.
Qed.

Lemma clean_elems_app (r : bool) (es1 es2 out : list string) :
  clean_elems r out (es1 ++ es2) = clean_elems r (clean_elems r out es1) es2.
Proof.
  revert out. induction es1 as [|e es1 IH]; intros out; simpl; [reflexivity |].
  repeat (case_match; try apply IH).
Qed.

Lemma rooted_app (a b : string) : a <> "" -> rooted (a +:+ b) = rooted a.
Proof. destruct a; [contradiction | reflexivity]. Qed.

(** [Clean] of two parts joined by a separator continues the loop from the
    buffer of the first part. *)
Lemma Clean_nonempty_eq (a : string) :
  a <> "" -> Clean a = render (rooted a) (stack a).
Proof.
  intros Ha. unfold Clean. apply String.eqb_neq in Ha. now rewrite Ha.
Qed.

Lemma Clean_app_sep (a b : string) :
  a <> "" ->
  Clean (a +:+ sep +:+ b)
  = render (rooted a) (clean_elems (rooted a) (stack a) (elements b)).
Proof.
  intros Ha. rewrite Clean_nonempty_eq.
  - unfold stack. rewrite rooted_app by assumption.
    now rewrite elements_app_sep, clean_elems_app.
  - intros [? _]%sapp_eq_nil. contradiction.
Qed.

(** ** [Split] *)

Lemma Split_spec (p d f : string) :
  Split p = (d, f) ->
  p = d +:+ f /\ sep_free f = true /\ (d = "" \/ exists d', d = d' +:+ sep).
Proof.
  revert d f. induction p as [|c p IH]; simpl; intros d f H.
  - inversion H; subst. repeat split. now left.
  - destruct (Split p) as [d0 f0]. destruct (IH d0 f0 eq_refl) as (Hp & Hf & Hd).
    destruct (String.eqb_spec d0 "") as [->|Hne].
    + simpl in Hp. subst p. destruct (IsPathSeparator c) eqn:Hc.
      * inversion H; subst. repeat split; [assumption |].
        right. exists "". simpl. unfold sep. f_equal.
        now apply Ascii.eqb_eq in Hc.
      * inversion H; subst. repeat split; [|now left].
        simpl. now rewrite Hc.
    + inversion H; subst. repeat split; [assumption |].
      right. destruct Hd as [->|[d' ->]]; [contradiction |].
      now exists (String c d').
Qed.

Lemma Split_sep_free (f : string) : sep_free f = true -> Split f = ("", f).
Proof.
  induction f as [|c f IH]; simpl; [reflexivity |].
  intros [Hc Hf]%andb_prop. apply negb_true_iff in Hc.
  now rewrite (IH Hf), Hc.
Qed.

Lemma Split_app_sep (a c : string) :
  sep_free c = true -> Split (a +:+ sep +:+ c) = (a +:+ sep, c).
Proof.
  intros Hc. change (sep +:+ c) with (String Separator c).
  induction a as [|x a IH]; simpl.
  - now rewrite (Split_sep_free c Hc).
  - rewrite IH. destruct (String.eqb_spec (a +:+ sep) "") as [E|_]; [|reflexivity].
    apply sapp_eq_nil in E. destruct E as [_ E]. discriminate.
Qed.

(** ** Cleaned buffers *)

Lemma plain_inv (s : string) :
  plain s = true -> sep_free s = true /\ s <> "" /\ s <> "." /\ s <> "..".
Proof.
  unfold plain. rewrite !andb_true_iff, !negb_true_iff, !String.eqb_neq. tauto.
Qed.

Lemma plain_intro (s : string) :
  sep_free s = true -> s <> "" -> s <> "." -> s <> ".." -> plain s = true.
Proof.
  unfold plain. rewrite !andb_true_iff, !negb_true_iff, !String.eqb_neq. tauto.
Qed.

Lemma cleaned_dotdots (out : list string) :
  Forall (eq "..") out -> cleaned false out.
Proof.
  induction 1 as [|o out Ho Hout IH]; simpl; [exact I |].
  right. subst o. auto.
Qed.

Lemma cleaned_app_r (r : bool) (l1 l2 : list string) :
  cleaned r (l1 ++ l2) -> cleaned r l2.
Proof.
  induction l1 as [|o l1 IH]; simpl; [auto |].
  intros [[_ H]|(_ & -> & H)]; [auto |].
  apply cleaned_dotdots. now apply Forall_app in H.
Qed.

Lemma clean_elems_cleaned (r : bool) (es out : list string) :
  Forall (fun e => sep_free e = true) es ->
  cleaned r out -> cleaned r (clean_elems r out es).
Proof.
  intros Hes. revert out.
  induction Hes as [|e es He Hes IH]; intros out Hout; simpl; [assumption |].
  destruct (String.eqb_spec e ""); [now apply IH |].
  destruct (String.eqb_spec e "."); [now apply IH |].
  destruct (String.eqb_spec e "..").
  - destruct out as [|o out'].
    + destruct r; apply IH; simpl; auto.
    + destruct (String.eqb_spec o "..") as [->|Ho].
      * apply IH. simpl in Hout.
        destruct Hout as [[Hp _]|(_ & -> & Hd)]; [discriminate |].
        simpl. right. auto.
      * apply IH. simpl in Hout.
        destruct Hout as [[_ H]|(-> & _)]; [assumption | contradiction].
  - apply IH. simpl. left. split; [now apply plain_intro | assumption].
Qed.

Lemma stack_cleaned (p : string) : cleaned (rooted p) (stack p).
Proof.
  unfold stack. apply clean_elems_cleaned; [apply elements_all_sep_free | exact I].
Qed.

(** Reading a cleaned buffer back writes it again. *)
Lemma clean_elems_rev (r : bool) (xs acc : list string) :
  cleaned r (rev xs ++ acc) -> clean_elems r acc xs = rev xs ++ acc.
Proof.
  revert acc. induction xs as [|x xs IH]; intros acc H; simpl; [reflexivity |].
  simpl in H. rewrite <- List.app_assoc in H. simpl in H.
  pose proof (cleaned_app_r _ _ _ H) as Hx. simpl in Hx.
  rewrite <- List.app_assoc. simpl.
  destruct Hx as [[Hp _]|(-> & -> & Hd)].
  - apply plain_inv in Hp. destruct Hp as (_ & H1 & H2 & H3).
    apply String.eqb_neq in H1, H2, H3. rewrite H1, H2, H3. now apply IH.
  - simpl. destruct acc as [|o acc']; [now apply IH |].
    inversion Hd; subst. simpl. now apply IH.
Qed.

Lemma cleaned_elems (r : bool) (out : list string) :
  cleaned r out -> Forall (fun e => sep_free e = true /\ e <> "") out.
Proof.
  induction out as [|o out IH]; simpl; [constructor |].
  intros [[Hp H]|(-> & _ & Hd)].
  - constructor; [|auto]. apply plain_inv in Hp. tauto.
  - constructor; [split; [reflexivity | discriminate] |].
    clear IH. induction Hd as [|x l Hx Hl IHl]; constructor; [|exact IHl].
    subst x. split; [reflexivity | discriminate].
Qed.

Lemma strings_Join_cons (e : string) (l : list string) :
  l <> [] -> strings_Join (e :: l) sep = e +:+ sep +:+ strings_Join l sep.
Proof. destruct l; [contradiction | reflexivity]. Qed.

Lemma strings_Join_snoc (l : list string) (c : string) :
  l <> [] -> strings_Join (l ++ [c]) sep = strings_Join l sep +:+ sep +:+ c.
Proof.
  induction l as [|e l IH]; [contradiction |]. intros _.
  destruct l as [|e' l]; [reflexivity |].
  change ((e :: e' :: l) ++ [c]) with (e :: ((e' :: l) ++ [c])).
  rewrite strings_Join_cons by (simpl; discriminate).
  rewrite IH by discriminate.
  rewrite (strings_Join_cons e (e' :: l)) by discriminate.
  now rewrite !sapp_assoc.
Qed.

Lemma elements_strings_Join (l : list string) :
  l <> [] -> Forall (fun e => sep_free e = true) l ->
  elements (strings_Join l sep) = l.
Proof.
  induction l as [|e l IH]; [contradiction |]. intros _ H.
  inversion H as [|? ? He Hl]; subst.
  destruct l as [|e' l]; [now apply elements_sep_free |].
  rewrite strings_Join_cons by discriminate.
  rewrite elements_app_sep, IH by (discriminate || assumption).
  now rewrite elements_sep_free.
Qed.

Lemma rooted_sep_free (e s : string) :
  sep_free e = true -> e <> "" -> rooted (e +:+ s) = false.
Proof.
  destruct e as [|c e]; [contradiction |]. simpl.
  intros [Hc _]%andb_prop _. now apply negb_true_iff in Hc.
Qed.

Lemma rooted_strings_Join (l : list string) :
  Forall (fun e => sep_free e = true /\ e <> "") l ->
  rooted (strings_Join l sep) = false.
Proof.
  destruct 1 as [|e l [He Hne] Hl]; [reflexivity |].
  destruct l as [|e' l].
  - rewrite <- (sapp_nil_r e). now apply rooted_sep_free.
  - rewrite strings_Join_cons by discriminate. now apply rooted_sep_free.
Qed.

Lemma render_nonempty (r : bool) (out : list string) :
  cleaned r out -> render r out <> "".
Proof.
  intros H. destruct out as [|o out]; [destruct r; discriminate |].
  unfold render. destruct r; [discriminate |].
  change ("" +:+ ?x) with x.
  apply cleaned_elems in H.
  intros E. assert (Hl : rev (o :: out) <> []).
  { simpl. intros E'. apply List.app_eq_nil in E'. destruct E' as [_ E']. discriminate. }
  pose proof (elements_strings_Join (rev (o :: out)) Hl) as He.
  rewrite E in He.
  assert (Hf : Forall (fun e => sep_free e = true) (rev (o :: out))).
  { apply Forall_rev. eapply Forall_impl; [exact H |]. simpl. tauto. }
  specialize (He Hf).
  apply Forall_rev in H. rewrite <- He in H.
  inversion H as [|? ? [_ Hne] _]. contradiction.
Qed.

Lemma rooted_render (r : bool) (out : list string) :
  cleaned r out -> rooted (render r out) = r.
Proof.
  intros H. destruct out as [|o out]; [now destruct r |].
  unfold render. destruct r; [reflexivity |].
  change ("" +:+ ?x) with x.
  apply rooted_strings_Join, Forall_rev. eapply cleaned_elems, H.
Qed.

Lemma stack_render (r : bool) (out : list string) :
  cleaned r out -> clean_elems r [] (elements (render r out)) = out.
Proof.
  intros H. destruct out as [|o out]; [now destruct r |].
  assert (Hl : rev (o :: out) <> []).
  { simpl. intros E'. apply List.app_eq_nil in E'. destruct E' as [_ E']. discriminate. }
  assert (Hf : Forall (fun e => sep_free e = true) (rev (o :: out))).
  { apply Forall_rev. eapply Forall_impl; [exact (cleaned_elems _ _ H) |].
    simpl. tauto. }
  assert (Hc : clean_elems r [] (rev (o :: out)) = o :: out).
  { rewrite clean_elems_rev; rewrite rev_involutive, List.app_nil_r; auto. }
  unfold render. destruct r.
  - change (sep +:+ ?x) with (String Separator x).
    change (elements (String Separator ?x)) with ("" :: elements x).
    rewrite elements_strings_Join by assumption. exact Hc.
  - change ("" +:+ ?x) with x.
    rewrite elements_strings_Join by assumption. exact Hc.
Qed.

(** ** [Clean] and [Join] *)

Lemma Clean_nonempty (p : string) : Clean p <> "".
Proof.
  unfold Clean. destruct (String.eqb p ""); [discriminate |].
  apply render_nonempty, stack_cleaned.
Qed.

Lemma rooted_Clean (p : string) : p <> "" -> rooted (Clean p) = rooted p.
Proof.
  intros Hp. rewrite Clean_nonempty_eq by assumption.
  apply rooted_render, stack_cleaned.
Qed.

Lemma stack_Clean (p : string) : p <> "" -> stack (Clean p) = stack p.
Proof.
  intros Hp. unfold stack at 1. rewrite rooted_Clean by assumption.
  rewrite Clean_nonempty_eq by assumption.
  apply stack_render, stack_cleaned.
Qed.

Lemma Clean_idem (p : string) : Clean (Clean p) = Clean p.
Proof.
  destruct (String.eqb_spec p "") as [->|Hp]; [reflexivity |].
  rewrite (Clean_nonempty_eq (Clean p)) by apply Clean_nonempty.
  rewrite rooted_Clean, stack_Clean by assumption.
  now rewrite Clean_nonempty_eq.
Qed.

Lemma Join_one (p : string) :
  Join [p] = if String.eqb p "" then "" else Clean p.
Proof. simpl. now destruct (String.eqb p ""). Qed.

Lemma Join_two (a b : string) :
  a <> "" -> Join [a; b] = Clean (a +:+ sep +:+ b).
Proof. intros Ha%String.eqb_neq. simpl. now rewrite Ha. Qed.

Lemma Join_empty_l (b : string) : Join [""; b] = Join [b].
Proof. reflexivity. Qed.

Lemma Join_nonempty (a b : string) : a <> "" -> Join [a; b] <> "".
Proof. intros Ha. rewrite Join_two by assumption. apply Clean_nonempty. Qed.

Lemma stack_trailing (a : string) : stack (a +:+ sep) = stack a.
Proof.
  destruct (String.eqb_spec a "") as [->|Ha]; [reflexivity |].
  unfold stack. rewrite rooted_app by assumption.
  rewrite <- (sapp_nil_r sep) at 1.
  now rewrite elements_app_sep, clean_elems_app.
Qed.

(** A trailing separator changes nothing. *)
Lemma Join_trailing (p : string) : Join [p; ""] = Join [p].
Proof.
  destruct (String.eqb_spec p "") as [->|Hp]; [reflexivity |].
  rewrite Join_two, Join_one by assumption.
  apply String.eqb_neq in Hp as Hp'. rewrite Hp'.
  rewrite Clean_app_sep by assumption. simpl.
  now rewrite Clean_nonempty_eq.
Qed.

(** After a directory part, which ends in a separator, one more separator
    changes nothing. *)
Lemma Clean_dir_app (d' b : string) :
  Clean ((d' +:+ sep) +:+ sep +:+ b) = Clean ((d' +:+ sep) +:+ b).
Proof.
  assert (Hd : d' +:+ sep <> "").
  { intros [_ E]%sapp_eq_nil. discriminate. }
  rewrite Clean_app_sep by assumption.
  rewrite stack_trailing.
  destruct (String.eqb_spec d' "") as [->|Hd'].
  - reflexivity.
  - rewrite rooted_app by assumption.
    rewrite sapp_assoc, Clean_app_sep by assumption. reflexivity.
Qed.

(** Joining the two parts of a split path gives the cleaned path. *)
Lemma Join_Split (p d f : string) : Split p = (d, f) -> Join [d; f] = Join [p].
Proof.
  intros H. apply Split_spec in H. destruct H as (-> & _ & [->|[d' ->]]).
  - reflexivity.
  - assert (Hd : d' +:+ sep <> "").
    { intros [_ E]%sapp_eq_nil. discriminate. }
    rewrite Join_two, Join_one by assumption.
    destruct (String.eqb_spec ((d' +:+ sep) +:+ f) "") as [E|_].
    + apply sapp_eq_nil in E. destruct E. contradiction.
    + apply Clean_dir_app.
Qed.

Lemma Join_Join (p : string) : Join [Join [p]] = Join [p].
Proof.
  rewrite (Join_one p). destruct (String.eqb_spec p "") as [->|Hp]; [reflexivity |].
  rewrite Join_one. pose proof (Clean_nonempty p) as H%String.eqb_neq.
  rewrite H. apply Clean_idem.
Qed.

Lemma clean_elems_plain (r : bool) (out : list string) (c : string) :
  plain c = true -> clean_elems r out (elements c) = c :: out.
Proof.
  intros Hc. apply plain_inv in Hc. destruct Hc as (Hs & H1 & H2 & H3).
  apply String.eqb_neq in H1, H2, H3.
  rewrite elements_sep_free by assumption. simpl. now rewrite H1, H2, H3.
Qed.

(** The leaf of a path is the last element written by [Clean], when it is a
    plain name. *)
Lemma stack_leaf (p d f : string) :
  Split p = (d, f) -> plain f = true -> exists out, stack p = f :: out.
Proof.
  intros H Hf. apply Split_spec in H. destruct H as (-> & Hs & Hd).
  destruct Hd as [->|[d' ->]].
  - exists []. change ("" +:+ f) with f. unfold stack.
    now apply clean_elems_plain.
  - rewrite sapp_assoc. destruct (String.eqb_spec d' "") as [->|Hd'].
    + exists []. unfold stack.
      change ("" +:+ sep +:+ f) with (String Separator f).
      change (elements (String Separator f)) with ("" :: elements f).
      change (rooted (String Separator f)) with true.
      change (clean_elems true [] ("" :: elements f))
        with (clean_elems true [] (elements f)).
      now apply clean_elems_plain.
    + exists (stack d'). unfold stack. rewrite rooted_app by assumption.
      rewrite elements_app_sep, clean_elems_app.
      now apply clean_elems_plain.
Qed.

(** A name listed in a directory is appended as it is. *)
Lemma stack_Join_child (p c : string) :
  p <> "" -> plain c = true -> stack (Join [p; c]) = c :: stack p.
Proof.
  intros Hp Hc. rewrite Join_two by assumption.
  assert (Hne : p +:+ sep +:+ c <> "").
  { intros [? _]%sapp_eq_nil. contradiction. }
  rewrite stack_Clean by assumption.
  unfold stack. rewrite rooted_app by assumption.
  rewrite elements_app_sep, clean_elems_app.
  now apply clean_elems_plain.
Qed.

Lemma render_push (r : bool) (o c : string) (out : list string) :
  render r (c :: o :: out) = render r (o :: out) +:+ sep +:+ c.
Proof.
  unfold render.
  change (rev (c :: o :: out)) with (rev (o :: out) ++ [c]).
  rewrite strings_Join_snoc.
  - now rewrite sapp_assoc.
  - simpl. intros E%List.app_eq_nil. destruct E as [_ E]. discriminate.
Qed.

Lemma Join_child (p c : string) :
  p <> "" -> stack p <> [] -> plain c = true ->
  Join [p; c] = Join [p; ""] +:+ sep +:+ c.
Proof.
  intros Hp Hs Hc. rewrite Join_trailing, Join_one.
  apply String.eqb_neq in Hp as Hp'. rewrite Hp'.
  rewrite Join_two, Clean_app_sep, Clean_nonempty_eq by assumption.
  rewrite clean_elems_plain by assumption.
  destruct (stack p) as [|o out]; [contradiction |].
  apply render_push.
Qed.

(** The directory part recorded for a directory, followed by a name, joins
    like the directory itself. *)
Lemma Join_key_child (x c : string) :
  x <> "" -> Join [Join [x; ""] +:+ sep; c] = Join [x; c].
Proof.
  intros Hx. rewrite Join_trailing, Join_one.
  apply String.eqb_neq in Hx as Hx'. rewrite Hx'.
  assert (Hd : Clean x +:+ sep <> "").
  { intros [_ E]%sapp_eq_nil. discriminate. }
  rewrite !Join_two by assumption.
  rewrite Clean_dir_app, sapp_assoc.
  rewrite !Clean_app_sep by (assumption || apply Clean_nonempty).
  now rewrite rooted_Clean, stack_Clean.
Qed.

Lemma sapp_sep_inj (a b : string) : a +:+ sep = b +:+ sep -> a = b.
Proof.
  revert b. induction a as [|x a IH]; intros [|y b]; simpl; intros E.
  - reflexivity.
  - inversion E as [[Hy Hb]]. symmetry in Hb.
    apply sapp_eq_nil in Hb. destruct Hb as [_ Hb]. discriminate.
  - inversion E as [[Hy Hb]].
    apply sapp_eq_nil in Hb. destruct Hb as [_ Hb]. discriminate.
  - inversion E as [[Hy Hb]]. f_equal. now apply IH.
Qed.

Lemma Join_eq_stack (p q : string) :
  p <> "" -> q <> "" -> Join [p] = Join [q] -> stack p = stack q.
Proof.
  intros Hp Hq. rewrite !Join_one.
  apply String.eqb_neq in Hp as Hp', Hq as Hq'. rewrite Hp', Hq'.
  intros E. rewrite <- (stack_Clean p), <- (stack_Clean q) by assumption.
  now rewrite E.
Qed.

End PathFacts.

(** ** Facts about the program *)

Section Facts.
Context {FS : Type} {os : OS FS} {uni : Unicode}.

Local Abbreviation St := (State FS).

Implicit Types (st : St) (fl : Flags) (p : string).

#[local] Arguments Path.Join : simpl never.
#[local] Arguments Path.Split : simpl never.
#[local] Arguments Path.Clean : simpl never.

Lemma rename_entry_same fl p st dir fname :
  Path.Split p = (dir, fname) ->
  normalize st fname = fname ->
  rename_entry fl p st = (st, inr (Path.Join [dir; fname], p)).
Proof.
  intros HS Hn. unfold rename_entry. rewrite HS, Hn.
  now rewrite String.eqb_refl.
Qed.

Lemma rename_entry_changed fl p st dir fname :
  Path.Split p = (dir, fname) ->
  normalize st fname <> fname ->
  rename_entry fl p st
  = rename_to fl p
      (Path.Join [fixedDir_of (dirFixed st) dir; normalize st fname]) st.
Proof.
  intros HS Hn%String.eqb_neq. unfold rename_entry, rename_to.
  rewrite HS, Hn. reflexivity.
Qed.

Lemma rename_to_frame fl p n st st1 r :
  rename_to fl p n st = (st1, r) ->
  dirFixed st1 = dirFixed st /\ formCode st1 = formCode st
  /\ formName st1 = formName st
  /\ (dryrun fl = true -> fs st1 = fs st).
Proof.
  unfold rename_to. intros H.
  destruct (quiet fl), (printBoth fl), (dryrun fl); simpl in H;
    repeat case_match; simplify_eq; simpl; repeat split; intros; congruence.
Qed.

Lemma rename_entry_frame fl p st st1 r :
  rename_entry fl p st = (st1, r) ->
  dirFixed st1 = dirFixed st /\ formCode st1 = formCode st
  /\ formName st1 = formName st
  /\ (dryrun fl = true -> fs st1 = fs st).
Proof.
  destruct (Path.Split p) as [dir fname] eqn:HS.
  destruct (decide (normalize st fname = fname)) as [Hn|Hn].
  - rewrite (rename_entry_same _ _ _ _ _ HS Hn). intros [= <- <-]. auto.
  - rewrite (rename_entry_changed _ _ _ _ _ HS Hn). apply rename_to_frame.
Qed.

(** A relation between states that every step of [process] keeps holds
    between the state before and the state after a call. *)
Section Steps.
Variable fl : Flags.
Variable R : St -> St -> Prop.
Hypothesis R_refl : forall st, R st st.
Hypothesis R_trans : forall st1 st2 st3, R st1 st2 -> R st2 st3 -> R st1 st3.
Hypothesis R_entry : forall p st st1 r,
  rename_entry fl p st = (st1, r) -> R st st1.
Hypothesis R_record : forall p st st1 n a,
  rename_entry fl p st = (st1, inr (n, a)) -> R st (record_dir p n st1).

Lemma range_children_steps (rec : string -> St -> St * outcome) a d :
  (forall q st, R st (fst (rec q st))) ->
  forall st, R st (fst (range_children rec a d st)).
Proof.
  intros Hrec. induction d as [|f d IH]; intros st; simpl; [apply R_refl |].
  pose proof (Hrec (Path.Join [a; f]) st) as H1.
  destruct (rec (Path.Join [a; f]) st) as [st' [|[e|]]]; simpl in *;
    [assumption | assumption |].
  eapply R_trans; [exact H1 | apply IH].
Qed.

Lemma process_steps fuel : forall p st, R st (fst (process fuel fl p st)).
Proof.
  induction fuel as [|fuel IH]; intros p st; simpl; [apply R_refl |].
  destruct (os_Stat (fs st) p) as [e|info]; simpl; [apply R_refl |].
  destruct (rename_entry fl p st) as [st1 [e|[n a]]] eqn:HE; simpl.
  { eapply R_entry, HE. }
  destruct (IsDir info); simpl; [|eapply R_entry, HE].
  pose proof (R_record _ _ _ _ _ HE) as H2.
  destruct (recurse fl); simpl; [|exact H2].
  destruct (os_ReadDir _ a) as [e|d]; simpl; [exact H2 |].
  eapply R_trans; [exact H2 |]. now apply range_children_steps.
Qed.

Lemma range_names_steps fuel l : forall st, R st (fst (range_names fuel fl l st)).
Proof.
  induction l as [|name l IH]; intros st; simpl; [apply R_refl |].
  pose proof (process_steps fuel name st) as H1.
  destruct (process fuel fl name st) as [st' [|[e|]]]; simpl in *;
    [assumption | assumption |].
  eapply R_trans; [exact H1 | apply IH].
Qed.

Lemma range_args_steps fuel args : forall st, R st (fst (range_args fuel fl args st)).
Proof.
  induction args as [|pat args IH]; intros st; simpl; [apply R_refl |].
  destruct (filepath_Glob (fs st) pat) as [e|l]; simpl; [apply R_refl |].
  pose proof (range_names_steps fuel l st) as H1.
  destruct (range_names fuel fl l st) as [st' [|[e|]]]; simpl in *;
    [assumption | assumption |].
  eapply R_trans; [exact H1 | apply IH].
Qed.
End Steps.

Lemma process_formCode fuel fl p st :
  formCode (fst (process fuel fl p st)) = formCode st.
Proof.
  apply (process_steps fl (fun a b => formCode b = formCode a)); try congruence.
  - intros q s s1 r H. now apply rename_entry_frame in H.
  - intros q s s1 n a H. now apply rename_entry_frame in H.
Qed.

Lemma rename_entry_actual_dry fl p st st1 n a :
  dryrun fl = true -> rename_entry fl p st = (st1, inr (n, a)) -> a = p.
Proof.
  intros Hd. unfold rename_entry.
  destruct (Path.Split p) as [dir fname]. rewrite Hd. simpl.
  repeat case_match; congruence.
Qed.

Lemma process_fs_dry fuel fl p st :
  dryrun fl = true -> fs (fst (process fuel fl p st)) = fs st.
Proof.
  intros Hd.
  apply (process_steps fl (fun a b => fs b = fs a)); try congruence.
  - intros q s s1 r H. apply rename_entry_frame in H. now apply H.
  - intros q s s1 n a H. apply rename_entry_frame in H. simpl. now apply H.
Qed.

(** ** The keys of [dirFixed] *)

Lemma dir_key_Join p : dir_key p = Path.Join [p] +:+ Path.sep.
Proof. unfold dir_key. now rewrite PathFacts.Join_trailing. Qed.

Lemma dir_key_same p dir fname :
  Path.Split p = (dir, fname) -> dir_key (Path.Join [dir; fname]) = dir_key p.
Proof.
  intros HS. rewrite !dir_key_Join, (PathFacts.Join_Split _ _ _ HS).
  now rewrite PathFacts.Join_Join.
Qed.

Lemma dir_key_eq_stack p q :
  p <> "" -> q <> "" -> dir_key p = dir_key q -> Path.stack p = Path.stack q.
Proof.
  intros Hp Hq. rewrite !dir_key_Join. intros E%PathFacts.sapp_sep_inj.
  now apply PathFacts.Join_eq_stack.
Qed.

Lemma dir_key_nonempty p : dir_key p <> "".
Proof.
  unfold dir_key. intros [_ E]%PathFacts.sapp_eq_nil. discriminate.
Qed.

Lemma fixedDir_of_miss (m : gmap string string) dir :
  m !! dir = None -> fixedDir_of m dir = dir.
Proof. intros H. unfold fixedDir_of, map_index. now rewrite H. Qed.

Lemma fixedDir_of_hit (m : gmap string string) dir v :
  m !! dir = Some v -> v <> "" -> fixedDir_of m dir = v.
Proof.
  intros H Hv%String.eqb_neq. unfold fixedDir_of, map_index.
  rewrite H. simpl. now rewrite Hv.
Qed.

(** ** [changes_only] is kept by the traversal *)

Lemma changes_only_empty (form : Form) : changes_only form ∅.
Proof. intros k v H. rewrite lookup_empty in H. discriminate. Qed.

Section Sound.
Variable form : Form.
Hypothesis norm_empty : norm_String form "" = "".
Hypothesis norm_dot : norm_String form "." = ".".
Hypothesis norm_dotdot : norm_String form ".." = "..".

Lemma changed_leaf_plain p dir fname :
  Path.Split p = (dir, fname) ->
  norm_String form fname <> fname ->
  Path.plain fname = true /\ p <> "".
Proof.
  intros HS Hn. split.
  - apply PathFacts.Split_spec in HS. destruct HS as (_ & Hf & _).
    apply PathFacts.plain_intro; [assumption | | |]; intros ->; contradiction.
  - intros ->. compute in HS. inversion HS; subst. contradiction.
Qed.

Lemma changes_only_record fl p st st1 n a :
  formCode st = form ->
  rename_entry fl p st = (st1, inr (n, a)) ->
  changes_only form (dirFixed st) ->
  changes_only form (dirFixed (record_dir p n st1)).
Proof.
  intros Hform HE Hm.
  destruct (Path.Split p) as [dir fname] eqn:HS.
  pose proof (rename_entry_frame _ _ _ _ _ HE) as (Hd & _).
  unfold record_dir. simpl. rewrite Hd.
  destruct (decide (normalize st fname = fname)) as [Hn|Hn].
  - rewrite (rename_entry_same _ _ _ _ _ HS Hn) in HE.
    inversion HE; subst. rewrite (dir_key_same _ _ _ HS).
    intros k v Hk Hv. apply lookup_insert_Some in Hk.
    destruct Hk as [[<- <-]|[_ Hk]]; [contradiction | exact (Hm k v Hk Hv)].
  - unfold normalize in Hn. rewrite Hform in Hn.
    destruct (changed_leaf_plain _ _ _ HS Hn) as [Hpl Hp].
    destruct (PathFacts.stack_leaf _ _ _ HS Hpl) as [out Hout].
    intros k v Hk Hv. apply lookup_insert_Some in Hk.
    destruct Hk as [[<- <-]|[_ Hk]]; [|exact (Hm k v Hk Hv)].
    intros p' f' out' Hp' Hkey Hst.
    rewrite (dir_key_eq_stack p' p Hp' Hp Hkey), Hout in Hst.
    now inversion Hst; subst.
Qed.

Lemma process_changes_only fuel fl p st :
  formCode st = form ->
  changes_only form (dirFixed st) ->
  changes_only form (dirFixed (fst (process fuel fl p st))).
Proof.
  intros Hform.
  enough (formCode (fst (process fuel fl p st)) = form
          /\ (changes_only form (dirFixed st) ->
              changes_only form (dirFixed (fst (process fuel fl p st)))))
    by tauto.
  revert Hform.
  apply (process_steps fl (fun a b =>
    formCode a = form ->
    formCode b = form
    /\ (changes_only form (dirFixed a) -> changes_only form (dirFixed b)))).
  - tauto.
  - intros s1 s2 s3 H12 H23 H1. destruct (H12 H1) as [H2 H12'].
    destruct (H23 H2) as [H3 H23']. auto.
  - intros q s s1 r H Hf. apply rename_entry_frame in H.
    destruct H as (Hd & Hc & _). rewrite Hd, Hc. auto.
  - intros q s s1 n a H Hf. split.
    + apply rename_entry_frame in H. simpl. destruct H as (_ & Hc & _).
      congruence.
    + now apply (changes_only_record fl q s s1 n a).
Qed.

Lemma range_children_changes_only fuel fl a d st :
  formCode st = form ->
  changes_only form (dirFixed st) ->
  changes_only form (dirFixed (fst (range_children (process fuel fl) a d st))).
Proof.
  revert st. induction d as [|f d IH]; intros st Hf Hm; simpl; [assumption |].
  pose proof (process_changes_only fuel fl (Path.Join [a; f]) st Hf Hm) as H1.
  pose proof (process_formCode fuel fl (Path.Join [a; f]) st) as H2.
  destruct (process fuel fl (Path.Join [a; f]) st) as [st' [|[e|]]];
    simpl in *; [assumption | assumption |].
  apply IH; [congruence | assumption].
Qed.
End Sound.

(** ** A dry run writes keys below the processed path only *)

Lemma range_children_formCode fuel fl a d st :
  formCode (fst (range_children (process fuel fl) a d st)) = formCode st.
Proof.
  apply (range_children_steps (fun x y => formCode y = formCode x));
    try congruence.
  intros q s. apply process_formCode.
Qed.

Lemma range_children_fs_dry fuel fl a d st :
  dryrun fl = true ->
  fs (fst (range_children (process fuel fl) a d st)) = fs st.
Proof.
  intros Hd.
  apply (range_children_steps (fun x y => fs y = fs x)); try congruence.
  intros q s. now apply process_fs_dry.
Qed.

Section DryFrame.
Variable fl : Flags.
Hypothesis Hdry : dryrun fl = true.

Lemma range_children_dry_frame (rec : string -> St -> St * outcome) q k x d :
  (forall c st, Path.plain c = true -> fs st = x ->
     dirFixed (fst (rec (Path.Join [q; c]) st)) !! k = dirFixed st !! k
     /\ fs (fst (rec (Path.Join [q; c]) st)) = x) ->
  Forall (fun c => Path.plain c = true) d ->
  forall st, fs st = x ->
  dirFixed (fst (range_children rec q d st)) !! k = dirFixed st !! k.
Proof.
  intros Hrec Hd. induction Hd as [|c d Hc Hd IH]; intros st Hx; simpl;
    [reflexivity |].
  destruct (Hrec c st Hc Hx) as [H1 H2].
  destruct (rec (Path.Join [q; c]) st) as [st' [|[e|]]]; simpl in *;
    [assumption | assumption |].
  rewrite IH by assumption. exact H1.
Qed.

Lemma process_dry_frame fuel : forall q st k,
  lists_plain (fs st) -> q <> "" -> outside q k ->
  dirFixed (fst (process fuel fl q st)) !! k = dirFixed st !! k.
Proof.
  induction fuel as [|fuel IH]; intros q st k Hl Hq Hk; simpl; [reflexivity |].
  destruct (os_Stat (fs st) q) as [e|info]; simpl; [reflexivity |].
  destruct (rename_entry fl q st) as [st1 [e|[n a]]] eqn:HE; simpl.
  { apply rename_entry_frame in HE. destruct HE as [-> _]. reflexivity. }
  pose proof (rename_entry_actual_dry _ _ _ _ _ _ Hdry HE) as ->.
  apply rename_entry_frame in HE. destruct HE as (Hd & _ & _ & Hfs).
  specialize (Hfs Hdry).
  destruct (IsDir info); simpl; [|now rewrite Hd].
  assert (Hne : dir_key q <> k).
  { intros E. apply (Hk q Hq E). reflexivity. }
  assert (H2 : dirFixed (record_dir q n st1) !! k = dirFixed st !! k).
  { unfold record_dir. simpl. rewrite lookup_insert_ne by assumption.
    now rewrite Hd. }
  destruct (recurse fl); simpl; [|exact H2].
  rewrite Hfs.
  destruct (os_ReadDir (fs st) q) as [e|d] eqn:HR; simpl; [exact H2 |].
  rewrite <- H2.
  apply (range_children_dry_frame _ q k (fs st)); [|now apply (Hl q) |exact Hfs].
  intros c s Hc Hs. split.
  - apply IH.
    + now rewrite Hs.
    + now apply PathFacts.Join_nonempty.
    + intros p' Hp' Hkey Hsuf. apply (Hk p' Hp' Hkey).
      rewrite PathFacts.stack_Join_child in Hsuf by assumption.
      now apply suffix_cons_l in Hsuf.
  - rewrite process_fs_dry by assumption. exact Hs.
Qed.
End DryFrame.

(** ** The entry of a renamed directory *)

Lemma rename_to_result fl p n st st1 n' a :
  rename_to fl p n st = (st1, inr (n', a)) ->
  n' = n /\ a = (if dryrun fl then p else n).
Proof.
  unfold rename_to. destruct (dryrun fl); simpl; repeat case_match;
    intros; simplify_eq; auto.
Qed.

Lemma Join_leaf_nonempty (a b : string) :
  b <> "" -> Path.Join [a; b] <> "".
Proof.
  intros Hb. destruct (String.eqb_spec a "") as [->|Ha].
  - rewrite PathFacts.Join_empty_l, PathFacts.Join_one.
    apply String.eqb_neq in Hb. rewrite Hb. apply PathFacts.Clean_nonempty.
  - now apply PathFacts.Join_nonempty.
Qed.

Lemma stack_Join_leaf (a b : string) :
  Path.plain b = true -> exists out, Path.stack (Path.Join [a; b]) = b :: out.
Proof.
  intros Hb. destruct (String.eqb_spec a "") as [->|Ha].
  - pose proof (PathFacts.plain_inv _ Hb) as (Hs & Hne & _).
    rewrite PathFacts.Join_empty_l, PathFacts.Join_one.
    apply String.eqb_neq in Hne as Hne'. rewrite Hne'.
    rewrite PathFacts.stack_Clean by assumption.
    apply (PathFacts.stack_leaf b "" b); [|assumption].
    now apply PathFacts.Split_sep_free.
  - exists (Path.stack a). now apply PathFacts.stack_Join_child.
Qed.

(** A listed name below a directory splits into the directory's key and
    the name. *)
Lemma Split_child (a c : string) :
  a <> "" -> Path.stack a <> [] -> Path.plain c = true ->
  Path.Split (Path.Join [a; c]) = (dir_key a, c).
Proof.
  intros Ha Hs Hc. rewrite PathFacts.Join_child by assumption.
  unfold dir_key.
  apply PathFacts.Split_app_sep. now apply PathFacts.plain_inv in Hc.
Qed.

Lemma Join_Join2 (a c : string) :
  Path.Join [Path.Join [a; c]] = Path.Join [a; c].
Proof.
  destruct (String.eqb_spec a "") as [->|Ha].
  - rewrite PathFacts.Join_empty_l. apply PathFacts.Join_Join.
  - rewrite PathFacts.Join_two by assumption.
    rewrite PathFacts.Join_one.
    pose proof (PathFacts.Clean_nonempty (a +:+ Path.sep +:+ c)) as H.
    apply String.eqb_neq in H. rewrite H. apply PathFacts.Clean_idem.
Qed.

(** The loop of [process] is the loop over the names, when each visit is
    what the recursive call does and a property of the state is kept. *)
Lemma range_children_visit (I : St -> Prop)
    (rec visit : string -> St -> St * outcome) a d :
  Forall (fun c => Path.plain c = true) d ->
  (forall c s, Path.plain c = true -> I s ->
     rec (Path.Join [a; c]) s = visit c s) ->
  (forall c s, Path.plain c = true -> I s ->
     I (fst (rec (Path.Join [a; c]) s))) ->
  forall s, I s -> range_children rec a d s = visit_children visit d s.
Proof.
  intros Hd Hstep Hkeep.
  induction Hd as [|c d Hc Hd IH]; intros s Hs; simpl; [reflexivity |].
  rewrite <- (Hstep c s Hc Hs).
  pose proof (Hkeep c s Hc Hs) as Hs'.
  destruct (rec (Path.Join [a; c]) s) as [s' [|[e|]]]; simpl in *; auto.
Qed.

(** An entry below a directory whose key leads to [newName] is processed
    as [process_below] says. *)
Lemma process_below_step fuel fl newName a c s :
  a <> "" -> Path.stack a <> [] -> Path.plain c = true ->
  (forall x, Path.Join [fixedDir_of (dirFixed s) (dir_key a); x]
             = Path.Join [newName; x]) ->
  process fuel fl (Path.Join [a; c]) s = process_below fuel fl newName a c s.
Proof.
  intros Ha Hs Hc Hfix. destruct fuel as [|fuel]; simpl; [reflexivity |].
  destruct (os_Stat (fs s) (Path.Join [a; c])) as [e|info]; [reflexivity |].
  pose proof (Split_child a c Ha Hs Hc) as HSc.
  destruct (String.eqb_spec (normalize s c) c) as [Hn|Hn].
  - rewrite (rename_entry_same _ _ _ _ _ HSc Hn).
    rewrite (PathFacts.Join_Split _ _ _ HSc), Join_Join2. reflexivity.
  - rewrite (rename_entry_changed _ _ _ _ _ HSc Hn), Hfix. reflexivity.
Qed.

Lemma rename_to_real fl p n st st1 n' a :
  dryrun fl = false ->
  rename_to fl p n st = (st1, inr (n', a)) ->
  os_Rename (fs st) p n = inr (fs st1).
Proof.
  intros Hd. unfold rename_to. rewrite Hd. simpl.
  destruct (quiet fl), (printBoth fl); simpl;
    destruct (os_Rename (fs st) p n); intros; simplify_eq; reflexivity.
Qed.

(** C2. For a directory whose leaf name changes, [process] with recursion
    is: the directory is counted, printed and renamed (in a dry run:
    projected) to [newName]; it is entered into [dirFixed]; its listing is
    read; and every listed entry is processed with the new path
    [Join(newName, normalize(entry))] when its own name changes too, built
    on the directory's new name and not on its old one, in a dry run as in
    a real run ([process_below]).  The Unicode library is assumed to leave
    the empty name, [.] and [..] alone, and listings to hold plain names.
    The new path of the directory must not be empty; in a real run the last
    element of its cleaned form must be a name the form leaves alone, as it
    is when the normalized leaf is a plain name in normal form. *)
Theorem child_follows_renamed_directory fuel fl st p dir fname info :
  norm_String (formCode st) "" = "" ->
  norm_String (formCode st) "." = "." ->
  norm_String (formCode st) ".." = ".." ->
  changes_only (formCode st) (dirFixed st) ->
  Path.Split p = (dir, fname) ->
  normalize st fname <> fname ->
  os_Stat (fs st) p = inr info ->
  IsDir info = true ->
  recurse fl = true ->
  let newName :=
    Path.Join [fixedDir_of (dirFixed st) dir; normalize st fname] in
  (dryrun fl = true -> lists_plain (fs st) /\ newName <> "") ->
  (dryrun fl = false ->
   (exists e out, Path.stack newName = e :: out /\ normalize st e = e)
   /\ (forall x d, os_Rename (fs st) p newName = inr x ->
       os_ReadDir x newName = inr d ->
       Forall (fun c => Path.plain c = true) d)) ->
  process (S fuel) fl p st
  = match rename_to fl p newName st with
    | (st1, inl err) => (st1, Returned (Some err))
    | (st1, inr (_, actualName)) =>
        match os_ReadDir (fs st1) actualName with
        | inl e => (record_dir p newName st1, Returned (Some e))
        | inr d =>
            visit_children (process_below fuel fl newName actualName) d
              (record_dir p newName st1)
        end
    end.
Proof.
  intros N0 N1 N2 Hm HS Hn HStat Hdir Hrec newName Hdry Hreal.
  pose (form := formCode st). fold form in N0, N1, N2, Hm.
  simpl. rewrite HStat, (rename_entry_changed _ _ _ _ _ HS Hn).
  fold newName.
  destruct (rename_to fl p newName st) as [st1 [err|[n a]]] eqn:HE;
    [reflexivity |].
  pose proof (rename_to_frame _ _ _ _ _ _ HE) as (Hd1 & Hf1 & _ & Hfs1).
  fold form in Hf1.
  pose proof (rename_to_result _ _ _ _ _ _ _ HE) as [-> Hactual].
  rewrite Hdir, Hrec. simpl.
  destruct (os_ReadDir (fs st1) a) as [e|d] eqn:HR; [reflexivity |].
  destruct (changed_leaf_plain form N0 N1 N2 _ _ _ HS Hn) as [Hfpl Hp].
  destruct (PathFacts.stack_leaf _ _ _ HS Hfpl) as [outp Houtp].
  set (st2 := record_dir p newName st1).
  assert (Hf2 : formCode st2 = form) by exact Hf1.
  assert (Hm2 : changes_only form (dirFixed st2)).
  { apply (changes_only_record form N0 N1 N2 fl p st st1 newName a);
      [reflexivity | | assumption].
    now rewrite (rename_entry_changed _ _ _ _ _ HS Hn). }
  destruct (dryrun fl) eqn:Hmode.
  - (* dry run: the entry made for the directory stays *)
    subst a. destruct (Hdry eq_refl) as [Hlist HnewNe].
    specialize (Hfs1 eq_refl).
    apply (range_children_visit
             (fun s => fs s = fs st
                       /\ dirFixed s !! dir_key p = Some (dir_key newName))).
    + rewrite Hfs1 in HR. exact (Hlist _ _ HR).
    + intros c s Hc [_ Hkey].
      apply process_below_step; try assumption.
      * rewrite Houtp. discriminate.
      * intros x. rewrite (fixedDir_of_hit _ _ _ Hkey (dir_key_nonempty _)).
        unfold dir_key. now apply PathFacts.Join_key_child.
    + intros c s Hc [Hfs Hkey]. split.
      * rewrite process_fs_dry by assumption. exact Hfs.
      * rewrite (process_dry_frame fl Hmode); [exact Hkey | | |].
        -- now rewrite Hfs.
        -- now apply PathFacts.Join_nonempty.
        -- intros p' Hp' Hk Hsuf.
           rewrite PathFacts.stack_Join_child in Hsuf by assumption.
           rewrite (dir_key_eq_stack p' p Hp' Hp Hk) in Hsuf.
           apply suffix_length in Hsuf. simpl in Hsuf. lia.
    + split; [exact Hfs1 |]. unfold st2, record_dir. simpl.
      apply lookup_insert_eq.
  - (* real run: an entry under the new name can only repeat that name *)
    subst a. destruct (Hreal eq_refl) as [(e & out & Hout & He) Hlist].
    assert (HnewNe : newName <> "").
    { intros E. rewrite E in Hout. discriminate. }
    apply (range_children_visit
             (fun s => formCode s = form /\ changes_only form (dirFixed s))).
    + apply (Hlist (fs st1)); [|exact HR].
      exact (rename_to_real _ _ _ _ _ _ _ Hmode HE).
    + intros c s Hc [Hfs Hms].
      apply process_below_step; try assumption.
      * rewrite Hout. discriminate.
      * intros x.
        assert (Hfix : fixedDir_of (dirFixed s) (dir_key newName)
                       = dir_key newName).
        { destruct (dirFixed s !! dir_key newName) as [v|] eqn:Hv;
            [|now apply fixedDir_of_miss].
          destruct (decide (v = dir_key newName)) as [->|Hne].
          - apply fixedDir_of_hit; [assumption | apply dir_key_nonempty].
          - exfalso.
            apply (Hms _ _ Hv Hne newName e out HnewNe eq_refl Hout).
            exact He. }
        rewrite Hfix. unfold dir_key. now apply PathFacts.Join_key_child.
    + intros c s Hc [Hfs Hms]. split.
      * rewrite process_formCode. exact Hfs.
      * now apply process_changes_only.
    + split; assumption.
Qed.

(** C4. When the directory part of a path has no entry in [dirFixed], the
    entry is counted, printed and renamed with the new path
    [Join(dir, normalize(leaf))]: the directory part as it was, the leaf
    replaced. *)
Theorem lookup_miss_keeps_directory fl p st dir fname :
  Path.Split p = (dir, fname) ->
  normalize st fname <> fname ->
  dirFixed st !! dir = None ->
  rename_entry fl p st
  = rename_to fl p (Path.Join [dir; normalize st fname]) st.
Proof.
  intros HS Hn Hmiss.
  rewrite (rename_entry_changed _ _ _ _ _ HS Hn).
  now rewrite fixedDir_of_miss.
Qed.

Lemma unchanged_entry fl p st dir fname :
  Path.Split p = (dir, fname) ->
  normalize st fname = fname ->
  rename_entry fl p st = (st, inr (Path.Join [p], p)).
Proof.
  intros HS Hn. rewrite (rename_entry_same _ _ _ _ _ HS Hn).
  now rewrite (PathFacts.Join_Split _ _ _ HS).
Qed.

Lemma unchanged_call fl p st fuel :
  rename_entry fl p st = (st, inr (Path.Join [p], p)) ->
  recurse fl = false ->
  let st' := fst (process fuel fl p st) in
  fs st' = fs st /\ stdout st' = stdout st /\ fileCount st' = fileCount st.
Proof.
  intros HE Hr. destruct fuel as [|fuel]; simpl; [auto |].
  destruct (os_Stat (fs st) p) as [e|info]; simpl; [auto |].
  rewrite HE, Hr. destruct (IsDir info); simpl; auto.
Qed.

(** C5. For a path whose leaf name is already in the configured form the
    entry step changes nothing in the state (no rename, nothing printed,
    counter as before); the entry stays at its original path [p], and the
    new path is the cleaned spelling [Join(p)] of the original one, which
    has the same [dirFixed] key and is [p] itself for every path the
    recursion builds.  Without recursion the whole call leaves the file
    system, the output and the counter as they were. *)
Theorem normalized_leaf_is_left_alone fl p st dir fname :
  Path.Split p = (dir, fname) ->
  normalize st fname = fname ->
  rename_entry fl p st = (st, inr (Path.Join [p], p))
  /\ dir_key (Path.Join [p]) = dir_key p
  /\ (forall a c, p = Path.Join [a; c] -> Path.Join [p] = p)
  /\ (forall fuel, recurse fl = false ->
      let st' := fst (process fuel fl p st) in
      fs st' = fs st /\ stdout st' = stdout st /\ fileCount st' = fileCount st).
Proof.
  intros HS Hn.
  pose proof (unchanged_entry fl p st dir fname HS Hn) as HE.
  split; [exact HE |]. split; [|split].
  - rewrite <- (PathFacts.Join_Split _ _ _ HS). now apply dir_key_same.
  - intros a c ->. apply Join_Join2.
  - intros fuel Hr. now apply unchanged_call.
Qed.

(** C10. A path that ends in a separator splits into itself and an empty
    leaf; as the empty leaf normalizes to itself, the entry step changes
    nothing in the state, whatever the base name of the directory is: no
    rename, nothing printed, counter as before. *)
Theorem trailing_separator_is_left_alone fl q st :
  normalize st "" = "" ->
  Path.Split (q +:+ Path.sep) = (q +:+ Path.sep, "")
  /\ rename_entry fl (q +:+ Path.sep) st
     = (st, inr (Path.Join [q +:+ Path.sep], q +:+ Path.sep))
  /\ (forall fuel, recurse fl = false ->
      let st' := fst (process fuel fl (q +:+ Path.sep) st) in
      fs st' = fs st /\ stdout st' = stdout st /\ fileCount st' = fileCount st).
Proof.
  intros Hn.
  assert (HS : Path.Split (q +:+ Path.sep) = (q +:+ Path.sep, "")).
  { pose proof (PathFacts.Split_app_sep q "" eq_refl) as H.
    now rewrite (PathFacts.sapp_nil_r Path.sep) in H. }
  split; [exact HS |].
  pose proof (unchanged_entry fl _ st _ _ HS Hn) as HE.
  split; [exact HE |].
  intros fuel Hr. now apply unchanged_call.
Qed.

(** C7. In a dry run no call of [process] and no run changes the file
    system, whatever the names are. *)
Theorem dry_run_leaves_file_system fuel fl args p st :
  dryrun fl = true ->
  fs (fst (process fuel fl p st)) = fs st
  /\ fs (fst (run fuel fl args st)) = fs st.
Proof.
  intros Hd. split; [now apply process_fs_dry |].
  unfold run. simpl.
  destruct (select_form (strings_ToUpper (formName st))) as [f|]; [|reflexivity].
  etransitivity.
  - apply (range_args_steps fl (fun a b => fs b = fs a)); try congruence.
    + intros q s s1 r H. apply rename_entry_frame in H. now apply H.
    + intros q s s1 n a H. apply rename_entry_frame in H. simpl. now apply H.
  - reflexivity.
Qed.

(** ** Errors *)

Lemma range_children_app (rec : string -> St -> St * outcome) a pre post st st1 :
  range_children rec a pre st = (st1, Returned None) ->
  range_children rec a (pre ++ post) st = range_children rec a post st1.
Proof.
  revert st. induction pre as [|f pre IH]; intros st; simpl.
  - now intros [= ->].
  - destruct (rec (Path.Join [a; f]) st) as [st' [|[e|]]]; try discriminate.
    apply IH.
Qed.

Lemma range_names_app fuel fl pre post st st1 :
  range_names fuel fl pre st = (st1, Returned None) ->
  range_names fuel fl (pre ++ post) st = range_names fuel fl post st1.
Proof.
  revert st. induction pre as [|f pre IH]; intros st; simpl.
  - now intros [= ->].
  - destruct (process fuel fl f st) as [st' [|[e|]]]; try discriminate.
    apply IH.
Qed.

Lemma range_args_app fuel fl pre post st st1 :
  range_args fuel fl pre st = (st1, Returned None) ->
  range_args fuel fl (pre ++ post) st = range_args fuel fl post st1.
Proof.
  revert st. induction pre as [|f pre IH]; intros st; simpl.
  - now intros [= ->].
  - destruct (filepath_Glob (fs st) f) as [e|l]; try discriminate.
    destruct (range_names fuel fl l st) as [st' [|[e|]]]; try discriminate.
    apply IH.
Qed.

(** C6. An error of [os.Stat], [os.Rename] or [os.ReadDir] is what
    [process] returns, in the state reached so far.  An error returned for
    an entry of a directory ends the loop over the directory and is what the
    call for the directory returns; an error returned for a name ends the
    loop over the names of its pattern and the loop over the patterns, and is
    what [run] returns.  In each case the entries, names and patterns that
    follow ([post], [lpost], [args']) have no influence on the result. *)
Theorem first_error_ends_the_run fuel fl :
  (forall p st e,
     os_Stat (fs st) p = inl e ->
     process (S fuel) fl p st = (st, Returned (Some e)))
  /\ (forall p st info st1 e,
     os_Stat (fs st) p = inr info ->
     rename_entry fl p st = (st1, inl e) ->
     process (S fuel) fl p st = (st1, Returned (Some e)))
  /\ (forall p st info st1 newName actualName e,
     os_Stat (fs st) p = inr info -> IsDir info = true -> recurse fl = true ->
     rename_entry fl p st = (st1, inr (newName, actualName)) ->
     os_ReadDir (fs st1) actualName = inl e ->
     process (S fuel) fl p st = (record_dir p newName st1, Returned (Some e)))
  /\ (forall p st info st1 newName actualName pre f post st2 st3 e,
     os_Stat (fs st) p = inr info -> IsDir info = true -> recurse fl = true ->
     rename_entry fl p st = (st1, inr (newName, actualName)) ->
     os_ReadDir (fs st1) actualName = inr (pre ++ f :: post) ->
     range_children (process fuel fl) actualName pre (record_dir p newName st1)
       = (st2, Returned None) ->
     process fuel fl (Path.Join [actualName; f]) st2 = (st3, Returned (Some e)) ->
     process (S fuel) fl p st = (st3, Returned (Some e)))
  /\ (forall pre name post st st1 st2 e,
     range_names fuel fl pre st = (st1, Returned None) ->
     process fuel fl name st1 = (st2, Returned (Some e)) ->
     range_names fuel fl (pre ++ name :: post) st = (st2, Returned (Some e)))
  /\ (forall pre pattern args' l st st1 st2 e,
     range_args fuel fl pre st = (st1, Returned None) ->
     filepath_Glob (fs st1) pattern = inr l ->
     range_names fuel fl l st1 = (st2, Returned (Some e)) ->
     range_args fuel fl (pre ++ pattern :: args') st = (st2, Returned (Some e)))
  /\ (forall pre pattern args' lpre name lpost st f st1 st2 st3 e,
     select_form (strings_ToUpper (formName st)) = Some f ->
     range_args fuel fl pre
       (set_formCode f (set_formName (strings_ToUpper (formName st)) st))
       = (st1, Returned None) ->
     filepath_Glob (fs st1) pattern = inr (lpre ++ name :: lpost) ->
     range_names fuel fl lpre st1 = (st2, Returned None) ->
     process fuel fl name st2 = (st3, Returned (Some e)) ->
     run fuel fl (pre ++ pattern :: args') st = (st3, Returned (Some e))).
Proof.
  repeat split.
  - intros p st e H. simpl. now rewrite H.
  - intros p st info st1 e H HE. simpl. now rewrite H, HE.
  - intros p st info st1 n a e H Hdir Hrec HE HR. simpl.
    rewrite H, HE, Hdir, Hrec. simpl. now rewrite HR.
  - intros p st info st1 n a pre f post st2 st3 e H Hdir Hrec HE HR Hpre Hf.
    simpl. rewrite H, HE, Hdir, Hrec. simpl. rewrite HR.
    rewrite (range_children_app _ _ _ _ _ _ Hpre). simpl. now rewrite Hf.
  - intros pre name post st st1 st2 e Hpre Hf.
    rewrite (range_names_app _ _ _ _ _ _ Hpre). simpl. now rewrite Hf.
  - intros pre pat args' l st st1 st2 e Hpre HG Hl.
    rewrite (range_args_app _ _ _ _ _ _ Hpre). simpl. now rewrite HG, Hl.
  - intros pre pat args' lpre name lpost st f st1 st2 st3 e Hsel Hpre HG Hl Hf.
    unfold run. simpl. rewrite Hsel.
    rewrite (range_args_app _ _ _ _ _ _ Hpre). simpl. rewrite HG.
    rewrite (range_names_app _ _ _ _ _ _ Hl). simpl. now rewrite Hf.
Qed.

(** ** The form selector *)

Lemma same_letter_upper (a b : ascii) :
  is_upper_byte b = true -> same_letter a b = true ->
  Path.is_ascii_byte a = true /\ Path.upper_byte a = b.
Proof.
  unfold is_upper_byte, same_letter, Path.is_ascii_byte, Path.upper_byte.
  intros Hb H.
  apply andb_prop in Hb. destruct Hb as [Hb1%Nat.leb_le Hb2%Nat.leb_le].
  apply orb_prop in H. destruct H as [H|H]; [apply orb_prop in H; destruct H as [H|H] |].
  - apply Ascii.eqb_eq in H. subst a. split.
    + apply Nat.ltb_lt. lia.
    + destruct (97 <=? nat_of_ascii b)%nat eqn:E; [|reflexivity].
      apply Nat.leb_le in E. lia.
  - apply andb_prop in H. destruct H as [Ha H%Nat.eqb_eq].
    apply andb_prop in Ha. destruct Ha as [Ha%Nat.leb_le _]. lia.
  - apply andb_prop in H. destruct H as [_ H%Nat.eqb_eq]. split.
    + apply Nat.ltb_lt. lia.
    + replace (97 <=? nat_of_ascii a)%nat with true
        by (symmetry; apply Nat.leb_le; lia).
      replace (nat_of_ascii a <=? 122)%nat with true
        by (symmetry; apply Nat.leb_le; lia).
      simpl. replace (nat_of_ascii a - 32)%nat with (nat_of_ascii b) by lia.
      apply ascii_nat_embedding.
Qed.

Lemma upper_same_letter (a : ascii) : same_letter a (Path.upper_byte a) = true.
Proof.
  unfold same_letter, Path.upper_byte, is_upper_byte.
  destruct ((97 <=? nat_of_ascii a)%nat && (nat_of_ascii a <=? 122)%nat) eqn:E.
  - apply andb_prop in E. destruct E as [E1%Nat.leb_le E2%Nat.leb_le].
    pose proof (nat_ascii_bounded a) as Hlt.
    rewrite nat_ascii_embedding by lia.
    replace (65 <=? nat_of_ascii a - 32)%nat with true
      by (symmetry; apply Nat.leb_le; lia).
    replace (nat_of_ascii a - 32 <=? 90)%nat with true
      by (symmetry; apply Nat.leb_le; lia).
    replace (nat_of_ascii a =? nat_of_ascii a - 32 + 32)%nat with true
      by (symmetry; apply Nat.eqb_eq; lia).
    simpl. now rewrite orb_true_r.
  - now rewrite Ascii.eqb_refl.
Qed.

Lemma eq_fold_upper (s v : string) :
  all_upper v = true -> eq_fold s v = true ->
  Path.isASCII s = true /\ Path.map_bytes Path.upper_byte s = v.
Proof.
  revert v. induction s as [|a s IH]; intros [|b v]; simpl; try discriminate; auto.
  intros [Hb Hv]%andb_prop [Hab Hsv]%andb_prop.
  destruct (same_letter_upper a b Hb Hab) as [Ha <-].
  destruct (IH v Hv Hsv) as [Hs <-]. now rewrite Ha, Hs.
Qed.

Lemma upper_eq_fold (s : string) :
  eq_fold s (Path.map_bytes Path.upper_byte s) = true.
Proof.
  induction s as [|a s IH]; simpl; [reflexivity |].
  now rewrite upper_same_letter, IH.
Qed.

Lemma select_form_names (v : string) (f : Form) :
  (v, f) ∈ form_names -> select_form v = Some f /\ all_upper v = true.
Proof.
  unfold form_names. rewrite !elem_of_cons, elem_of_nil.
  intros H. repeat (destruct H as [H|H]; [inversion H; subst; now vm_compute |]).
  contradiction.
Qed.

Lemma select_form_Some (u : string) (f : Form) :
  select_form u = Some f -> (u, f) ∈ form_names.
Proof.
  unfold select_form, form_names. rewrite !elem_of_cons.
  destruct (String.eqb_spec u "NFC") as [->|_]; [intros [= <-]; auto |].
  destruct (String.eqb_spec u "WIN") as [->|_]; [intros [= <-]; auto |].
  destruct (String.eqb_spec u "NFD") as [->|_]; [intros [= <-]; auto 10 |].
  destruct (String.eqb_spec u "MAC") as [->|_]; [intros [= <-]; auto 10 |].
  destruct (String.eqb_spec u "NFKC") as [->|_]; [intros [= <-]; auto 10 |].
  destruct (String.eqb_spec u "NFKD") as [->|_]; [intros [= <-]; auto 10 |].
  discriminate.
Qed.

(** C9. A selector that is one of NFC, WIN, NFD, MAC, NFKC, NFKD up to the
    case of its letters selects that value's form (WIN the form of NFC, MAC
    the form of NFD) and the run goes on to the patterns.  A selector whose
    upper-cased form is none of the six makes [run] return the error at
    once: the state it returns differs from the initial one in [formName]
    only.  For a selector of ASCII bytes, where [strings.ToUpper] is computed
    here, that is every selector which matches none of the six up to case. *)
Theorem form_selector fuel fl args st :
  (forall v f, (v, f) ∈ form_names ->
     eq_fold (formName st) v = true ->
     run fuel fl args st
     = range_args fuel fl args (set_formCode f (set_formName v st)))
  /\ ((forall v f, (v, f) ∈ form_names -> strings_ToUpper (formName st) <> v) ->
     run fuel fl args st
     = (set_formName (strings_ToUpper (formName st)) st,
        Returned (Some "invalid normalization form")))
  /\ (Path.isASCII (formName st) = true ->
     (forall v f, (v, f) ∈ form_names -> eq_fold (formName st) v = false) ->
     run fuel fl args st
     = (set_formName (Path.map_bytes Path.upper_byte (formName st)) st,
        Returned (Some "invalid normalization form"))).
Proof.
  assert (Hnone :
    (forall v f, (v, f) ∈ form_names -> strings_ToUpper (formName st) <> v) ->
    run fuel fl args st
    = (set_formName (strings_ToUpper (formName st)) st,
       Returned (Some "invalid normalization form"))).
  { intros H. unfold run. simpl.
    destruct (select_form (strings_ToUpper (formName st))) as [f|] eqn:E;
      [|reflexivity].
    apply select_form_Some in E. now apply H in E. }
  split; [|split; [exact Hnone |]].
  - intros v f Hv Hfold.
    destruct (select_form_names v f Hv) as [Hsel Hup].
    destruct (eq_fold_upper _ _ Hup Hfold) as [Hascii Hmap].
    unfold run. simpl. unfold strings_ToUpper. rewrite Hascii, Hmap, Hsel.
    reflexivity.
  - intros Hascii H.
    assert (HU : strings_ToUpper (formName st)
                 = Path.map_bytes Path.upper_byte (formName st)).
    { unfold strings_ToUpper. now rewrite Hascii. }
    rewrite <- HU. apply Hnone.
    intros v f Hv E. specialize (H v f Hv).
    rewrite HU in E. rewrite <- E, upper_eq_fold in H. discriminate.
Qed.

(** C3, as the program has it.  Every directory for which the entry step
    succeeds is entered into [dirFixed] before its listing is read, whether
    its leaf name changed or not: the key is the cleaned original path and
    the value the cleaned new path, each followed by a separator.  An entry
    that is not a directory adds nothing, and the entry step itself leaves
    [dirFixed] as it was. *)
Theorem every_directory_is_recorded fuel fl p st info st1 newName actualName :
  os_Stat (fs st) p = inr info ->
  rename_entry fl p st = (st1, inr (newName, actualName)) ->
  process (S fuel) fl p st
  = (if IsDir info then
       if recurse fl then
         match os_ReadDir (fs st1) actualName with
         | inl e => (record_dir p newName st1, Returned (Some e))
         | inr d =>
             range_children (process fuel fl) actualName d
               (record_dir p newName st1)
         end
       else (record_dir p newName st1, Returned None)
     else (st1, Returned None))
  /\ dirFixed (record_dir p newName st1)
     = <[dir_key p := dir_key newName]> (dirFixed st)
  /\ dirFixed st1 = dirFixed st.
Proof.
  intros HS HE. split; [|split].
  - simpl. rewrite HS, HE. reflexivity.
  - apply rename_entry_frame in HE. destruct HE as [Hd _].
    unfold record_dir. simpl. now rewrite Hd.
  - now apply rename_entry_frame in HE.
Qed.

End Facts.

(** ** Further properties of the traversal *)

Section More.
Context {FS : Type} {os : OS FS} {uni : Unicode}.

Local Abbreviation St := (State FS).

Implicit Types (st : St) (fl : Flags) (p : string).

#[local] Arguments Path.Join : simpl never.
#[local] Arguments Path.Split : simpl never.
#[local] Arguments Path.Clean : simpl never.

(** The steps of [run]. *)
Lemma run_steps fl (R : St -> St -> Prop) :
  (forall st, R st st) ->
  (forall st1 st2 st3, R st1 st2 -> R st2 st3 -> R st1 st3) ->
  (forall p st st1 r, rename_entry fl p st = (st1, r) -> R st st1) ->
  (forall p st st1 n a,
     rename_entry fl p st = (st1, inr (n, a)) -> R st (record_dir p n st1)) ->
  (forall x st, R st (set_formName x st)) ->
  (forall x st, R st (set_formCode x st)) ->
  forall fuel args st, R st (fst (run fuel fl args st)).
Proof.
  intros Hrefl Htrans He Hr Hn Hc fuel args st. unfold run.
  set (st0 := set_formName (strings_ToUpper (formName st)) st).
  change (formName st0) with (strings_ToUpper (formName st)).
  destruct (select_form (strings_ToUpper (formName st))) as [f|]; simpl.
  - apply (Htrans _ st0); [apply Hn |].
    apply (Htrans _ (set_formCode f st0)); [apply Hc |].
    apply range_args_steps; assumption.
  - apply Hn.
Qed.

Lemma rename_entry_quiet fl p st st1 r :
  quiet fl = true -> rename_entry fl p st = (st1, r) -> stdout st1 = stdout st.
Proof.
  intros Hq. unfold rename_entry. destruct (Path.Split p) as [dir fname].
  rewrite Hq. simpl. repeat case_match; intros; simplify_eq; reflexivity.
Qed.

(** X1. With [-q] nothing is written to the standard output, by [process]
    and by [run], whatever is renamed. *)
Theorem quiet_prints_nothing fuel fl args p st :
  quiet fl = true ->
  stdout (fst (process fuel fl p st)) = stdout st
  /\ stdout (fst (run fuel fl args st)) = stdout st.
Proof.
  intros Hq. split.
  - apply (process_steps fl (fun a b => stdout b = stdout a)); try congruence.
    + intros q s s1 r H. exact (rename_entry_quiet fl q s s1 r Hq H).
    + intros q s s1 n a H. simpl. exact (rename_entry_quiet fl q s s1 _ Hq H).
  - apply (run_steps fl (fun a b => stdout b = stdout a)); try congruence.
    + intros q s s1 r H. exact (rename_entry_quiet fl q s s1 r Hq H).
    + intros q s s1 n a H. simpl. exact (rename_entry_quiet fl q s s1 _ Hq H).
    + reflexivity.
    + reflexivity.
Qed.

(** ** The counter and the output *)

Lemma wrap_int_add (a b : Z) : wrap_int (wrap_int a + b) = wrap_int (a + b).
Proof.
  unfold wrap_int.
  replace ((a + 2 ^ 63) mod 2 ^ 64 - 2 ^ 63 + b + 2 ^ 63)%Z
    with ((a + 2 ^ 63) mod 2 ^ 64 + b)%Z by lia.
  rewrite Zplus_mod_idemp_l. do 2 f_equal. lia.
Qed.

Lemma wrap_int_idem (a : Z) : wrap_int (wrap_int a) = wrap_int a.
Proof.
  pose proof (wrap_int_add a 0) as H. now rewrite !Z.add_0_r in H.
Qed.

Lemma rename_entry_counts fl p st st1 r :
  quiet fl = false ->
  rename_entry fl p st = (st1, r) ->
  (stdout st1 = stdout st /\ fileCount st1 = fileCount st)
  \/ (exists line, stdout st1 = stdout st ++ [line]
      /\ fileCount st1 = wrap_int (fileCount st + 1)).
Proof.
  intros Hq. unfold rename_entry. destruct (Path.Split p) as [dir fname].
  rewrite Hq. simpl.
  repeat case_match; intros; simplify_eq; simpl; eauto.
Qed.

Lemma counted_refl st : counted st st.
Proof.
  intros H. split; [assumption |]. exists []. rewrite List.app_nil_r.
  split; [reflexivity |]. simpl. rewrite Z.add_0_r. symmetry. exact H.
Qed.

Lemma counted_trans st1 st2 st3 :
  counted st1 st2 -> counted st2 st3 -> counted st1 st3.
Proof.
  intros H12 H23 H1. destruct (H12 H1) as (H2 & l1 & Ho1 & Hc1).
  destruct (H23 H2) as (H3 & l2 & Ho2 & Hc2). split; [assumption |].
  exists (l1 ++ l2). split.
  - now rewrite Ho2, Ho1, List.app_assoc.
  - rewrite Hc2, Hc1, wrap_int_add, length_app, Nat2Z.inj_add.
    f_equal. lia.
Qed.

Lemma counted_entry fl p st st1 r :
  quiet fl = false -> rename_entry fl p st = (st1, r) -> counted st st1.
Proof.
  intros Hq HE H.
  destruct (rename_entry_counts _ _ _ _ _ Hq HE) as [[Ho Hc]|(line & Ho & Hc)].
  - split; [now rewrite Hc |]. exists []. rewrite List.app_nil_r.
    split; [assumption |]. simpl. rewrite Z.add_0_r, Hc. symmetry. exact H.
  - split.
    + unfold in_int_range. rewrite Hc. apply wrap_int_idem.
    + exists [line]. split; assumption.
Qed.

(** X3. Without [-q], [fileCount] counts the messages written, one for each
    [Printf] (a message is one line, or two lines with [-both]): after
    [process] or [run] the output is the old output followed by new
    messages, and the counter has gone up (in 64-bit arithmetic) by their
    number. *)
Theorem counter_counts_messages fuel fl args p st :
  quiet fl = false ->
  in_int_range (fileCount st) ->
  (exists messages,
     stdout (fst (process fuel fl p st)) = stdout st ++ messages
     /\ fileCount (fst (process fuel fl p st))
        = wrap_int (fileCount st + Z.of_nat (length messages)))
  /\ (exists messages,
     stdout (fst (run fuel fl args st)) = stdout st ++ messages
     /\ fileCount (fst (run fuel fl args st))
        = wrap_int (fileCount st + Z.of_nat (length messages))).
Proof.
  intros Hq Hr. split.
  - apply (process_steps fl counted); try assumption.
    + apply counted_refl.
    + apply counted_trans.
    + intros q s s1 r. now apply counted_entry.
    + intros q s s1 n a HE. exact (counted_entry fl q s s1 _ Hq HE).
  - apply (run_steps fl counted); try assumption.
    + apply counted_refl.
    + apply counted_trans.
    + intros q s s1 r. now apply counted_entry.
    + intros q s s1 n a HE. exact (counted_entry fl q s s1 _ Hq HE).
    + intros x s. exact (counted_refl s).
    + intros x s. exact (counted_refl s).
Qed.

(** ** The entries of [dirFixed] *)

Lemma fixedDir_of_default (m : gmap string string) dir :
  no_empty_value m -> fixedDir_of m dir = default dir (m !! dir).
Proof.
  intros Hm. destruct (m !! dir) as [v|] eqn:E.
  - now apply fixedDir_of_hit; [|apply (Hm dir)].
  - now apply fixedDir_of_miss.
Qed.

Lemma no_empty_value_record fl p st st1 n a :
  rename_entry fl p st = (st1, inr (n, a)) ->
  no_empty_value (dirFixed st) ->
  no_empty_value (dirFixed (record_dir p n st1)).
Proof.
  intros HE Hm k v. apply rename_entry_frame in HE. destruct HE as [Hd _].
  unfold record_dir. simpl. rewrite Hd.
  intros [[_ <-]|[_ H]]%lookup_insert_Some.
  - apply dir_key_nonempty.
  - now apply (Hm k).
Qed.

(** X4. No empty string is ever stored in [dirFixed]: if the map has no
    empty value before [process] or [run], it has none after.  The test
    [fixedDir == ""] of line 74 therefore is true for the missing keys and
    for no other: the directory used is the stored one when there is one,
    and [dir] otherwise. *)
Theorem empty_value_means_missing_key fuel fl args p st :
  no_empty_value (dirFixed st) ->
  (no_empty_value (dirFixed (fst (process fuel fl p st)))
   /\ forall dir,
      fixedDir_of (dirFixed (fst (process fuel fl p st))) dir
      = default dir (dirFixed (fst (process fuel fl p st)) !! dir))
  /\ (no_empty_value (dirFixed (fst (run fuel fl args st)))
      /\ forall dir,
         fixedDir_of (dirFixed (fst (run fuel fl args st))) dir
         = default dir (dirFixed (fst (run fuel fl args st)) !! dir)).
Proof.
  intros Hm.
  pose (R := fun a b : St =>
    no_empty_value (dirFixed a) -> no_empty_value (dirFixed b)).
  assert (He : forall q s s1 r, rename_entry fl q s = (s1, r) -> R s s1).
  { intros q s s1 r H. apply rename_entry_frame in H. destruct H as [Hd _].
    unfold R. now rewrite Hd. }
  assert (Hr : forall q s s1 n a,
    rename_entry fl q s = (s1, inr (n, a)) -> R s (record_dir q n s1)).
  { intros q s s1 n a H. unfold R.
    now apply (no_empty_value_record fl q s s1 n a). }
  assert (HP : no_empty_value (dirFixed (fst (process fuel fl p st)))).
  { apply (process_steps fl R); unfold R; auto. }
  assert (HR : no_empty_value (dirFixed (fst (run fuel fl args st)))).
  { apply (run_steps fl R); unfold R; auto. }
  split; (split; [assumption |]); intros dir; now apply fixedDir_of_default.
Qed.

(** X5. [dirFixed] is never pruned: a key present before [process] or
    [run] is present after, however the call ended. *)
Theorem dirFixed_keeps_its_keys fuel fl args p st k :
  is_Some (dirFixed st !! k) ->
  is_Some (dirFixed (fst (process fuel fl p st)) !! k)
  /\ is_Some (dirFixed (fst (run fuel fl args st)) !! k).
Proof.
  intros Hk.
  pose (R := fun a b : St =>
    is_Some (dirFixed a !! k) -> is_Some (dirFixed b !! k)).
  assert (He : forall q s s1 r, rename_entry fl q s = (s1, r) -> R s s1).
  { intros q s s1 r H. apply rename_entry_frame in H. destruct H as [Hd _].
    unfold R. now rewrite Hd. }
  assert (Hr : forall q s s1 n a,
    rename_entry fl q s = (s1, inr (n, a)) -> R s (record_dir q n s1)).
  { intros q s s1 n a H. apply rename_entry_frame in H. destruct H as [Hd _].
    unfold R, record_dir. simpl. rewrite Hd, lookup_insert_is_Some.
    destruct (decide (dir_key q = k)); auto. }
  split.
  - apply (process_steps fl R); unfold R; auto.
  - apply (run_steps fl R); unfold R; auto.
Qed.

(** X6. The form is fixed for the whole run: [process] leaves [formCode]
    and [formName] as they are, and after [run] with an accepted selector
    [formCode] is the selected form and [formName] the upper-cased
    selector, however the traversal ended. *)
Theorem form_is_fixed_for_the_run fuel fl args p st f :
  select_form (strings_ToUpper (formName st)) = Some f ->
  (formCode (fst (process fuel fl p st)) = formCode st
   /\ formName (fst (process fuel fl p st)) = formName st)
  /\ formCode (fst (run fuel fl args st)) = f
  /\ formName (fst (run fuel fl args st)) = strings_ToUpper (formName st).
Proof.
  intros Hsel.
  pose (R := fun a b : St =>
    formCode b = formCode a /\ formName b = formName a).
  assert (He : forall q s s1 r, rename_entry fl q s = (s1, r) -> R s s1).
  { intros q s s1 r H. apply rename_entry_frame in H. unfold R. tauto. }
  assert (Hr : forall q s s1 n a,
    rename_entry fl q s = (s1, inr (n, a)) -> R s (record_dir q n s1)).
  { intros q s s1 n a H. apply rename_entry_frame in H. unfold R. simpl. tauto. }
  assert (Ht : forall s1 s2 s3, R s1 s2 -> R s2 s3 -> R s1 s3).
  { unfold R. intros s1 s2 s3 [? ?] [? ?]. split; congruence. }
  split.
  - apply (process_steps fl R); unfold R; auto.
  - unfold run. simpl. rewrite Hsel.
    pose proof (range_args_steps fl R (fun s => conj eq_refl eq_refl) Ht He Hr
                  fuel args
                  (set_formCode f (set_formName (strings_ToUpper (formName st)) st)))
      as [H1 H2].
    split; assumption.
Qed.

(** ** Patterns *)

Lemma range_args_no_match fuel fl args st :
  Forall (fun pattern => filepath_Glob (fs st) pattern = inr []) args ->
  range_args fuel fl args st = (st, Returned None).
Proof.
  induction 1 as [|pattern args Hp Hargs IH]; simpl; [reflexivity |].
  rewrite Hp. simpl. exact IH.
Qed.

(** X7. Patterns that match nothing are passed over in silence: when no
    pattern of the command line expands to a name, [run] returns [nil] and
    has changed nothing but [formName] and [formCode]. *)
Theorem unmatched_patterns_are_skipped fuel fl args st f :
  select_form (strings_ToUpper (formName st)) = Some f ->
  Forall (fun pattern => filepath_Glob (fs st) pattern = inr []) args ->
  run fuel fl args st
  = (set_formCode f (set_formName (strings_ToUpper (formName st)) st),
     Returned None).
Proof.
  intros Hsel Hargs. unfold run. simpl. rewrite Hsel.
  now apply range_args_no_match.
Qed.

(** X8. An error of [filepath.Glob] for a pattern is what [run] returns, in
    the state the patterns before it have left; the patterns after it are
    not expanded. *)
Theorem glob_error_ends_the_run fuel fl pre pattern post st f st1 e :
  select_form (strings_ToUpper (formName st)) = Some f ->
  range_args fuel fl pre
    (set_formCode f (set_formName (strings_ToUpper (formName st)) st))
    = (st1, Returned None) ->
  filepath_Glob (fs st1) pattern = inl e ->
  run fuel fl (pre ++ pattern :: post) st = (st1, Returned (Some e)).
Proof.
  intros Hsel Hpre HG. unfold run. simpl. rewrite Hsel.
  rewrite (range_args_app _ _ _ _ _ _ Hpre). simpl. now rewrite HG.
Qed.

(** ** [init] and [main] *)

Lemma ToUpper_default goos :
  strings_ToUpper (init_formName goos) = init_formName goos.
Proof.
  unfold init_formName.
  destruct (String.eqb goos "windows"); [reflexivity |].
  destruct (String.eqb goos "darwin"); reflexivity.
Qed.

(** X9. Without [-form] the selector is the default of [init], and [run]
    accepts it on every system: it goes on to the patterns with form NFD
    when [GOOS] is [darwin] and with form NFC otherwise. *)
Theorem default_form_is_accepted fuel goos cl (x : FS) :
  form_option cl = None ->
  run fuel (flags_given cl) (positional cl) (start goos cl x)
  = range_args fuel (flags_given cl) (positional cl)
      (set_formCode (if String.eqb goos "darwin" then NFD else NFC)
         (start goos cl x)).
Proof.
  intros Hopt. unfold run, start. rewrite Hopt. simpl.
  rewrite ToUpper_default. unfold init_formName.
  destruct (String.eqb_spec goos "windows") as [->|_]; [reflexivity |].
  destruct (String.eqb goos "darwin"); reflexivity.
Qed.


(** X11. A selector that is not accepted stops [main] before any name is
    looked at: with a name on the command line the exit status is 1, the
    error stream holds the line "invalid normalization form", nothing is
    printed and the file system is as it was.  Without a name the selector
    is not examined and the exit status is 0. *)
Theorem main_rejects_invalid_form fuel goos cl (x : FS) s :
  form_option cl = Some s ->
  select_form (strings_ToUpper s) = None ->
  (positional cl <> [] ->
   exists st',
     main fuel goos (Parsed cl) x
     = (st', [Line ("invalid normalization form" +:+ nl)], Some 1%Z)
     /\ fs st' = x /\ stdout st' = [] /\ dirFixed st' = ∅
     /\ fileCount st' = 0%Z)
  /\ (positional cl = [] ->
      main fuel goos (Parsed cl) x = (start goos cl x, [UsageText], Some 0%Z)).
Proof.
  intros Hopt Hsel. split; intros Hargs.
  - unfold main. destruct (positional cl) as [|name names]; [contradiction |].
    unfold run, start. rewrite Hopt. simpl. rewrite Hsel.
    eexists. split; [reflexivity |]. simpl. auto.
  - unfold main. now rewrite Hargs.
Qed.

(** ** Directory keys *)

Lemma Join_sep (p : string) : p <> "" -> Path.Join [p +:+ Path.sep] = Path.Join [p].
Proof.
  intros Hp. assert (Hd : p +:+ Path.sep <> "").
  { intros [? _]%PathFacts.sapp_eq_nil. contradiction. }
  rewrite !PathFacts.Join_one.
  apply String.eqb_neq in Hp as Hp', Hd as Hd'. rewrite Hp', Hd'.
  rewrite !PathFacts.Clean_nonempty_eq by assumption.
  now rewrite PathFacts.stack_trailing, PathFacts.rooted_app.
Qed.

(** X12. The key under which a directory is entered into [dirFixed] does
    not depend on the spelling of its path: the cleaned path, the path with
    a trailing separator and the path put together again from its two
    parts all have the key of the path itself.  Every key ends in a
    separator. *)
Theorem dir_key_ignores_spelling p :
  (p <> "" -> dir_key (Path.Clean p) = dir_key p)
  /\ (p <> "" -> dir_key (p +:+ Path.sep) = dir_key p)
  /\ (forall dir fname,
      Path.Split p = (dir, fname) -> dir_key (Path.Join [dir; fname]) = dir_key p)
  /\ exists x, dir_key p = x +:+ Path.sep.
Proof.
  repeat split.
  - intros Hp. rewrite !dir_key_Join.
    f_equal. rewrite !PathFacts.Join_one.
    pose proof (PathFacts.Clean_nonempty p) as H%String.eqb_neq.
    apply String.eqb_neq in Hp. rewrite H, Hp. apply PathFacts.Clean_idem.
  - intros Hp. rewrite !dir_key_Join. now rewrite Join_sep.
  - intros dir fname HS. now apply dir_key_same.
  - eexists. reflexivity.
Qed.

(** X13. The path made at line 108 for an entry [c] listed in a directory
    [a] splits at line 63 into the key of [a] and [c]: the lookup of a child
    finds what was entered for its directory.  This needs a cleaned path of
    [a] with at least one element, that is, neither [.] nor the root. *)
Theorem child_path_splits_at_directory_key a c :
  a <> "" -> Path.stack a <> [] -> Path.plain c = true ->
  Path.Split (Path.Join [a; c]) = (dir_key a, c)
  /\ Path.Join [a; c] = dir_key a +:+ c.
Proof.
  intros Ha Hs Hc. split; [now apply Split_child |].
  rewrite PathFacts.Join_child by assumption.
  unfold dir_key. now rewrite PathFacts.sapp_assoc.
Qed.

(** ** What the flags change *)

Lemma mute_fs st st' : mute st = mute st' -> fs st = fs st'.
Proof. intros H. exact (f_equal fs H). Qed.

Lemma rename_entry_mute fl fl' p st st' :
  dryrun fl = dryrun fl' ->
  mute st = mute st' ->
  mute (fst (rename_entry fl p st)) = mute (fst (rename_entry fl' p st'))
  /\ snd (rename_entry fl p st) = snd (rename_entry fl' p st').
Proof.
  intros Hd Hm. destruct st, st'. unfold mute in Hm. simpl in Hm.
  injection Hm as -> -> -> -> ->.
  unfold rename_entry, normalize. simpl.
  destruct (Path.Split p) as [dir fname]. rewrite Hd.
  destruct (negb (String.eqb (norm_String _ fname) fname)); [|auto].
  destruct (quiet fl), (printBoth fl), (quiet fl'), (printBoth fl'),
    (dryrun fl'); simpl; repeat case_match; auto.
Qed.

Lemma record_dir_mute p n st st' :
  mute st = mute st' -> mute (record_dir p n st) = mute (record_dir p n st').
Proof.
  intros Hm. destruct st, st'. unfold mute in Hm. simpl in Hm.
  injection Hm as -> -> -> -> ->. reflexivity.
Qed.

Lemma range_children_mute (rec rec' : string -> St -> St * outcome) a d :
  (forall q st st', mute st = mute st' ->
     mute (fst (rec q st)) = mute (fst (rec' q st'))
     /\ snd (rec q st) = snd (rec' q st')) ->
  forall st st', mute st = mute st' ->
  mute (fst (range_children rec a d st))
  = mute (fst (range_children rec' a d st'))
  /\ snd (range_children rec a d st) = snd (range_children rec' a d st').
Proof.
  intros Hrec. induction d as [|f d IH]; intros st st' Hm; simpl; [auto |].
  destruct (Hrec (Path.Join [a; f]) st st' Hm) as [H1 H2].
  destruct (rec (Path.Join [a; f]) st) as [s1 o1].
  destruct (rec' (Path.Join [a; f]) st') as [s1' o1']. simpl in *. subst o1'.
  destruct o1 as [|[e|]]; simpl; auto.
Qed.

Lemma process_mute fuel fl fl' :
  recurse fl = recurse fl' -> dryrun fl = dryrun fl' ->
  forall p st st', mute st = mute st' ->
  mute (fst (process fuel fl p st)) = mute (fst (process fuel fl' p st'))
  /\ snd (process fuel fl p st) = snd (process fuel fl' p st').
Proof.
  intros Hr Hd. induction fuel as [|fuel IH]; intros p st st' Hm; simpl; [auto |].
  rewrite <- (mute_fs _ _ Hm).
  destruct (os_Stat (fs st) p) as [e|info]; simpl; [auto |].
  destruct (rename_entry_mute fl fl' p st st' Hd Hm) as [H1 H2].
  destruct (rename_entry fl p st) as [s1 r1].
  destruct (rename_entry fl' p st') as [s1' r1']. simpl in *. subst r1'.
  destruct r1 as [e|[n a]]; simpl; [auto |].
  destruct (IsDir info); simpl; [|auto].
  pose proof (record_dir_mute p n s1 s1' H1) as H3.
  rewrite <- Hr. destruct (recurse fl); simpl; [|auto].
  rewrite <- (mute_fs _ _ H1).
  destruct (os_ReadDir (fs s1) a) as [e|d]; simpl; [auto |].
  now apply range_children_mute.
Qed.

Lemma range_names_mute fuel fl fl' l :
  recurse fl = recurse fl' -> dryrun fl = dryrun fl' ->
  forall st st', mute st = mute st' ->
  mute (fst (range_names fuel fl l st)) = mute (fst (range_names fuel fl' l st'))
  /\ snd (range_names fuel fl l st) = snd (range_names fuel fl' l st').
Proof.
  intros Hr Hd. induction l as [|name l IH]; intros st st' Hm; simpl; [auto |].
  destruct (process_mute fuel fl fl' Hr Hd name st st' Hm) as [H1 H2].
  destruct (process fuel fl name st) as [s1 o1].
  destruct (process fuel fl' name st') as [s1' o1']. simpl in *. subst o1'.
  destruct o1 as [|[e|]]; simpl; auto.
Qed.

Lemma range_args_mute fuel fl fl' args :
  recurse fl = recurse fl' -> dryrun fl = dryrun fl' ->
  forall st st', mute st = mute st' ->
  mute (fst (range_args fuel fl args st))
  = mute (fst (range_args fuel fl' args st'))
  /\ snd (range_args fuel fl args st) = snd (range_args fuel fl' args st').
Proof.
  intros Hr Hd. induction args as [|pat args IH]; intros st st' Hm; simpl;
    [auto |].
  rewrite <- (mute_fs _ _ Hm).
  destruct (filepath_Glob (fs st) pat) as [e|l]; simpl; [auto |].
  destruct (range_names_mute fuel fl fl' l Hr Hd st st' Hm) as [H1 H2].
  destruct (range_names fuel fl l st) as [s1 o1].
  destruct (range_names fuel fl' l st') as [s1' o1']. simpl in *. subst o1'.
  destruct o1 as [|[e|]]; simpl; auto.
Qed.

(** X2. The flags [-q] and [-both] change the output and nothing else: two
    runs that differ in these flags only, from states that differ in their
    output only, end in states with the same file system, counter,
    [dirFixed] and form, and return the same error or [nil]. *)
Theorem output_flags_change_output_only fuel fl fl' args p st st' :
  recurse fl = recurse fl' -> dryrun fl = dryrun fl' ->
  mute st = mute st' ->
  (mute (fst (process fuel fl p st)) = mute (fst (process fuel fl' p st'))
   /\ snd (process fuel fl p st) = snd (process fuel fl' p st'))
  /\ (mute (fst (run fuel fl args st)) = mute (fst (run fuel fl' args st'))
      /\ snd (run fuel fl args st) = snd (run fuel fl' args st')).
Proof.
  intros Hr Hd Hm. split; [now apply process_mute |].
  unfold run. simpl.
  assert (Hn : formName st = formName st') by exact (f_equal formName Hm).
  rewrite <- Hn.
  assert (Hm' : forall x, mute (set_formName x st) = mute (set_formName x st')).
  { intros x. destruct st, st'. unfold mute in Hm. simpl in Hm.
    injection Hm as -> -> -> -> ->. reflexivity. }
  destruct (select_form (strings_ToUpper (formName st))) as [f|]; simpl.
  - apply range_args_mute; try assumption.
    specialize (Hm' (strings_ToUpper (formName st))).
    destruct (set_formName _ st), (set_formName _ st').
    unfold mute in Hm'. simpl in Hm'. injection Hm' as -> -> -> -> ->.
    reflexivity.
  - split; [apply Hm' | reflexivity].
Qed.

(** ** What is never called *)

Lemma range_children_ext (rec rec' : string -> St -> St * outcome) a d st :
  (forall q s, rec q s = rec' q s) ->
  range_children rec a d st = range_children rec' a d st.
Proof.
  intros Hrec. revert st. induction d as [|f d IH]; intros st; simpl;
    [reflexivity |].
  rewrite Hrec. destruct (rec' (Path.Join [a; f]) st) as [s1 [|[e|]]]; auto.
Qed.

Lemma rename_entry_dry_os (os' : OS FS) fl p st :
  dryrun fl = true ->
  @rename_entry FS os' uni fl p st = @rename_entry FS os uni fl p st.
Proof.
  intros Hd. unfold rename_entry. destruct (Path.Split p) as [dir fname].
  now rewrite Hd.
Qed.

Lemma process_dry_os (os' : OS FS) fuel fl :
  (forall x q, @os_Stat FS os' x q = @os_Stat FS os x q) ->
  (forall x q, @os_ReadDir FS os' x q = @os_ReadDir FS os x q) ->
  dryrun fl = true ->
  forall p st, @process FS os' uni fuel fl p st = @process FS os uni fuel fl p st.
Proof.
  intros HS HR Hd. induction fuel as [|fuel IH]; intros p st; simpl;
    [reflexivity |].
  rewrite HS, (rename_entry_dry_os os') by assumption.
  destruct (os_Stat (fs st) p) as [e|info]; [reflexivity |].
  destruct (rename_entry fl p st) as [s1 [e|[n a]]]; [reflexivity |].
  destruct (IsDir info); [|reflexivity].
  destruct (recurse fl); [|reflexivity].
  rewrite HR. destruct (os_ReadDir _ a) as [e|d]; [reflexivity |].
  now apply range_children_ext.
Qed.

(** X14. A dry run never calls [os.Rename]: on two systems that answer
    [os.Stat], [os.ReadDir] and [filepath.Glob] alike, whatever their
    [os.Rename] does, [process] and [run] with [-dryrun] give the same
    states and the same results. *)
Theorem dry_run_never_calls_rename (os' : OS FS) fuel fl args p st :
  (forall x q, @os_Stat FS os' x q = @os_Stat FS os x q) ->
  (forall x q, @os_ReadDir FS os' x q = @os_ReadDir FS os x q) ->
  (forall x q, @filepath_Glob FS os' x q = @filepath_Glob FS os x q) ->
  dryrun fl = true ->
  @process FS os' uni fuel fl p st = @process FS os uni fuel fl p st
  /\ @run FS os' uni fuel fl args st = @run FS os uni fuel fl args st.
Proof.
  intros HS HR HG Hd. split; [now apply process_dry_os |].
  assert (Hnames : forall l s,
    @range_names FS os' uni fuel fl l s = @range_names FS os uni fuel fl l s).
  { induction l as [|name l IH]; intros s; simpl; [reflexivity |].
    rewrite (process_dry_os os') by assumption.
    destruct (process fuel fl name s) as [s1 [|[e|]]]; auto. }
  assert (Hargs : forall l s,
    @range_args FS os' uni fuel fl l s = @range_args FS os uni fuel fl l s).
  { induction l as [|pat l IH]; intros s; simpl; [reflexivity |].
    rewrite HG.
    destruct (filepath_Glob (fs s) pat) as [e|names]; [reflexivity |].
    rewrite Hnames.
    destruct (range_names fuel fl names s) as [s1 [|[e|]]]; auto. }
  unfold run. simpl.
  destruct (select_form (strings_ToUpper (formName st))); [apply Hargs | reflexivity].
Qed.

Lemma rename_entry_os (os' : OS FS) fl p st :
  (forall x a b, @os_Rename FS os' x a b = @os_Rename FS os x a b) ->
  @rename_entry FS os' uni fl p st = @rename_entry FS os uni fl p st.
Proof.
  intros HRn. unfold rename_entry. destruct (Path.Split p) as [dir fname].
  now rewrite HRn.
Qed.

Lemma rename_entry_one_line fl p st st1 r :
  rename_entry fl p st = (st1, r) ->
  (length (stdout st1) <= length (stdout st) + 1)%nat.
Proof.
  unfold rename_entry. destruct (Path.Split p) as [dir fname].
  repeat case_match; intros; simplify_eq; simpl;
    rewrite ?length_app; simpl; lia.
Qed.

(** X15. Without [-r], [process] handles the entry it is given and nothing
    else: it returns at the first level of the recursion (so any depth
    above 0 gives the result of depth 1), it writes at most one message
    (one [Printf]: one line, or two lines with [-both]), and it never calls
    [os.ReadDir]: on a system that answers [os.Stat] and [os.Rename] alike
    the result is the same whatever its [os.ReadDir] does. *)
Theorem without_recursion_only_the_entry fuel fl p st :
  recurse fl = false ->
  process (S fuel) fl p st = process 1 fl p st
  /\ snd (process (S fuel) fl p st) <> OutOfFuel
  /\ (length (stdout (fst (process (S fuel) fl p st)))
      <= length (stdout st) + 1)%nat
  /\ (forall os' : OS FS,
      (forall x q, @os_Stat FS os' x q = @os_Stat FS os x q) ->
      (forall x a b, @os_Rename FS os' x a b = @os_Rename FS os x a b) ->
      @process FS os' uni (S fuel) fl p st = @process FS os uni (S fuel) fl p st).
Proof.
  intros Hr. simpl. repeat split.
  - destruct (os_Stat (fs st) p) as [e|info]; [reflexivity |].
    destruct (rename_entry fl p st) as [s1 [e|[n a]]]; [reflexivity |].
    now rewrite Hr.
  - destruct (os_Stat (fs st) p) as [e|info]; [discriminate |].
    destruct (rename_entry fl p st) as [s1 [e|[n a]]]; [discriminate |].
    rewrite Hr. destruct (IsDir info); discriminate.
  - destruct (os_Stat (fs st) p) as [e|info]; simpl; [lia |].
    destruct (rename_entry fl p st) as [s1 r] eqn:HE.
    pose proof (rename_entry_one_line _ _ _ _ _ HE) as Hlen.
    destruct r as [e|[n a]]; simpl; [exact Hlen |].
    rewrite Hr. destruct (IsDir info); simpl; exact Hlen.
  - intros os' HS HRn. rewrite HS, (rename_entry_os os') by assumption.
    destruct (@os_Stat FS os (fs st) p) as [e|info]; [reflexivity |].
    destruct (@rename_entry FS os uni fl p st) as [s1 [e|[n a]]]; [reflexivity |].
    now rewrite Hr.
Qed.

(** ** Dry run and real run of one entry *)

Lemma rename_entry_dry_real fl p st :
  let dry := rename_entry (set_dryrun true fl) p st in
  let real := rename_entry (set_dryrun false fl) p st in
  stdout (fst dry) = stdout (fst real)
  /\ fileCount (fst dry) = fileCount (fst real)
  /\ dirFixed (fst dry) = dirFixed (fst real)
  /\ (forall n a, snd real = inr (n, a) -> exists a', snd dry = inr (n, a'))
  /\ (forall e, snd dry <> inl e).
Proof.
  unfold rename_entry. destruct (Path.Split p) as [dir fname]. simpl.
  destruct (negb (String.eqb (normalize st fname) fname)); simpl.
  - destruct (quiet fl), (printBoth fl); simpl;
      match goal with
      | |- context [os_Rename ?x ?a ?b] => destruct (os_Rename x a b)
      end; simpl; repeat split; try discriminate;
      intros n a [= <- <-]; eauto.
  - repeat split; try discriminate. intros n a [= <- <-]. eauto.
Qed.

(** X16. Without [-r] a dry run of [process] writes exactly what the real
    run writes and counts as the real run counts, from the same state; when
    the real run succeeds, so does the dry run, and both leave the same
    [dirFixed].  The dry run leaves the file system as it was. *)
Theorem dry_run_agrees_for_one_entry fuel fl p st :
  recurse fl = false ->
  let dry := process fuel (set_dryrun true fl) p st in
  let real := process fuel (set_dryrun false fl) p st in
  stdout (fst dry) = stdout (fst real)
  /\ fileCount (fst dry) = fileCount (fst real)
  /\ fs (fst dry) = fs st
  /\ (snd real = Returned None ->
      snd dry = Returned None /\ dirFixed (fst dry) = dirFixed (fst real)).
Proof.
  intros Hr dry real. subst dry real.
  split; [|split; [|split; [now apply process_fs_dry |]]];
    (destruct fuel as [|fuel]; simpl; [auto |]);
    (destruct (os_Stat (fs st) p) as [e|info]; simpl; [auto; try discriminate |]);
    pose proof (rename_entry_dry_real fl p st) as (Ho & Hc & Hd & Hn & Hne);
    simpl in *;
    destruct (rename_entry (set_dryrun true fl) p st) as [sd [ed|[nd ad]]];
    destruct (rename_entry (set_dryrun false fl) p st) as [sr [er|[nr ar]]];
    simpl in *; try (exfalso; now apply (Hne ed));
    rewrite ?Hr; try discriminate;
    try (destruct (Hn nr ar eq_refl) as [a' [= <- <-]]);
    destruct (IsDir info); simpl; auto; try discriminate;
    intros _; split; [reflexivity | now rewrite Hd].
Qed.

(** ** Invariants of [dirFixed] *)

(** X17. When the Unicode library leaves the empty name, [.] and [..]
    alone, a run keeps [dirFixed] truthful about renames: an entry whose
    value differs from its key is the entry of a directory whose last path
    element the selected form changes.  A directory whose name is already in
    the form is entered under its own key. *)
Theorem dirFixed_differs_for_changed_names_only fuel fl args st f :
  select_form (strings_ToUpper (formName st)) = Some f ->
  norm_String f "" = "" ->
  norm_String f "." = "." ->
  norm_String f ".." = ".." ->
  changes_only f (dirFixed st) ->
  changes_only f (dirFixed (fst (run fuel fl args st))).
Proof.
  intros Hsel N0 N1 N2 Hm. unfold run. simpl. rewrite Hsel.
  set (st0 := set_formCode f (set_formName (strings_ToUpper (formName st)) st)).
  pose (R := fun a b : St =>
    formCode a = f ->
    formCode b = f
    /\ (changes_only f (dirFixed a) -> changes_only f (dirFixed b))).
  assert (HR : R st0 (fst (range_args fuel fl args st0))).
  { apply (range_args_steps fl R); unfold R.
    - tauto.
    - intros s1 s2 s3 H12 H23 H1. destruct (H12 H1) as [H2 H12'].
      destruct (H23 H2) as [H3 H23']. auto.
    - intros q s s1 r H Hf. apply rename_entry_frame in H.
      destruct H as (Hd & Hc & _). rewrite Hd, Hc. auto.
    - intros q s s1 n a H Hf. split.
      + apply rename_entry_frame in H. simpl. destruct H as (_ & Hc & _).
        congruence.
      + now apply (changes_only_record f N0 N1 N2 fl q s s1 n a). }
  destruct (HR eq_refl) as [_ H]. now apply H.
Qed.

End More.

(** ** The program on the sample file system *)

Section Runs.
Import Sample.

Lemma insert_sorted_Forall (P : string -> Prop) x l :
  P x -> Forall P l -> Forall P (insert_sorted x l).
Proof.
  intros Hx Hl. induction Hl as [|y l Hy Hl IH]; simpl.
  - now constructor.
  - destruct (String.leb x y); repeat constructor; assumption.
Qed.

Lemma children_plain (t : Table) p :
  Forall (fun e => Path.plain (snd (Path.Split (fst e))) = true) t ->
  Forall (fun c => Path.plain c = true) (children t p).
Proof.
  unfold children. induction 1 as [|e t He Ht IH]; simpl; [constructor |].
  destruct (Path.Split (fst e)) as [d f]. simpl in He.
  destruct (String.eqb d (child_prefix p)); simpl; [|exact IH].
  now apply insert_sorted_Forall.
Qed.

Lemma table_lists_plain (t : Table) :
  Forall (fun e => Path.plain (snd (Path.Split (fst e))) = true) t ->
  lists_plain t.
Proof.
  intros Ht q l. simpl. unfold ReadDir.
  destruct (String.eqb q ""); [discriminate |].
  destruct (find_entry t (Path.Clean q)) as [[|]|]; try discriminate.
  intros [= <-]. now apply children_plain.
Qed.

Lemma tree2_lists_plain : lists_plain tree2.
Proof. apply table_lists_plain. repeat constructor. Qed.

(** C1 on [tree], in form NFC with recursion: the dry run prints the new
    path of the file below the old name of the top directory, the real run
    below its new name. *)
Theorem dry_run_prints_stale_directory :
  let dry := run 10 (flags true false true false) [e_decomposed] (initial tree "NFC") in
  let real := run 10 (flags true false false false) [e_decomposed] (initial tree "NFC") in
  snd dry = Returned None /\ snd real = Returned None
  /\ stdout (fst dry)
     = [e_composed +:+ nl;
        e_decomposed +:+ "/x/" +:+ e_composed +:+ ".txt" +:+ nl]
  /\ stdout (fst real)
     = [e_composed +:+ nl;
        e_composed +:+ "/x/" +:+ e_composed +:+ ".txt" +:+ nl]
  /\ stdout (fst dry) <> stdout (fst real).
Proof. vm_compute. repeat split; discriminate. Qed.

(** C3 fails on a directory [x], whose name is in form NFC: processing it
    adds the entry for [x/] to an empty [dirFixed]. *)
Lemma unchanged_directory_is_recorded :
  let st := initial [("x", true)] "NFC" in
  let st' := fst (process 1 (flags false false false false) "x" st) in
  normalize st "x" = "x"
  /\ dirFixed st !! "x/" = None
  /\ dirFixed st' !! "x/" = Some "x/"
  /\ dirFixed st' <> dirFixed st.
Proof.
  repeat split; try (vm_compute; reflexivity).
  intros E. apply (f_equal (fun m => m !! "x/")) in E.
  vm_compute in E. discriminate.
Qed.

(** C2 on [tree2], in a dry run and in a real run: the directory is
    renamed (projected) to the composed name, and its two entries are
    processed below that name. *)
Lemma child_follows_renamed_directory_tree2 :
  let st := initial tree2 "NFC" in
  let below fl actualName st1 :=
    visit_children (process_below 5 fl e_composed actualName)
      ["a.txt"; e_decomposed +:+ ".txt"]
      (record_dir e_decomposed e_composed st1) in
  (let fl := flags true false true false in
   process 6 fl e_decomposed st
   = below fl e_decomposed (fst (rename_to fl e_decomposed e_composed st)))
  /\ (let fl := flags true false false false in
      process 6 fl e_decomposed st
      = below fl e_composed (fst (rename_to fl e_decomposed e_composed st))).
Proof.
  intros st below. split.
  - intros fl.
    refine (eq_trans
              (child_follows_renamed_directory 5 fl st e_decomposed
                 "" e_decomposed {| IsDir := true |}
                 _ _ _ _ _ _ _ _ _ _ _) _).
    + reflexivity.
    + reflexivity.
    + reflexivity.
    + apply changes_only_empty.
    + reflexivity.
    + vm_compute. discriminate.
    + reflexivity.
    + reflexivity.
    + reflexivity.
    + intros _. split; [exact tree2_lists_plain | vm_compute; discriminate].
    + discriminate.
    + reflexivity.
  - intros fl.
    refine (eq_trans
              (child_follows_renamed_directory 5 fl st e_decomposed
                 "" e_decomposed {| IsDir := true |}
                 _ _ _ _ _ _ _ _ _ _ _) _).
    + reflexivity.
    + reflexivity.
    + reflexivity.
    + apply changes_only_empty.
    + reflexivity.
    + vm_compute. discriminate.
    + reflexivity.
    + reflexivity.
    + reflexivity.
    + discriminate.
    + intros _. split.
      * exists e_composed, []. split; reflexivity.
      * intros x d Hx Hd. vm_compute in Hx. injection Hx as <-.
        vm_compute in Hd. injection Hd as <-. repeat constructor.
    + reflexivity.
Defined.

(** C2 on [tree2]: what the two runs print. *)
Example renamed_directory_output :
  let st := initial tree2 "NFC" in
  let lines := [e_composed +:+ nl;
                e_composed +:+ "/" +:+ e_composed +:+ ".txt" +:+ nl] in
  stdout (fst (process 6 (flags true false true false) e_decomposed st)) = lines
  /\ stdout (fst (process 6 (flags true false false false) e_decomposed st))
     = lines.
Proof. split; reflexivity. Qed.

(** C3: the directory [x] of the table above. *)
Lemma every_directory_is_recorded_x :
  let fl := flags false false false false in
  let st := initial [("x", true)] "NFC" in
  dirFixed (record_dir "x" "x" st) = <[dir_key "x" := dir_key "x"]> (dirFixed st).
Proof.
  intros fl st.
  refine (proj1 (proj2 (every_directory_is_recorded 1 fl "x" st
                          {| IsDir := true |} st "x" "x" _ _))).
  - reflexivity.
  - reflexivity.
Defined.

(** C4: the top directory of [tree], with nothing recorded. *)
Lemma lookup_miss_keeps_directory_top :
  let fl := flags true false true false in
  let st := initial tree "NFC" in
  rename_entry fl e_decomposed st = rename_to fl e_decomposed e_composed st.
Proof.
  intros fl st.
  refine (lookup_miss_keeps_directory fl e_decomposed st "" e_decomposed _ _ _).
  - reflexivity.
  - vm_compute. discriminate.
  - reflexivity.
Defined.

(** C5: the directory [x] below the top directory of [tree]. *)
Lemma normalized_leaf_is_left_alone_x :
  let fl := flags true false false false in
  let st := initial tree "NFC" in
  let p := e_decomposed +:+ "/x" in
  rename_entry fl p st = (st, inr (p, p)).
Proof.
  intros fl st p.
  refine (proj1 (normalized_leaf_is_left_alone fl p st (e_decomposed +:+ "/") "x" _ _)).
  - reflexivity.
  - reflexivity.
Defined.

(** C6 on [clash]: the directory cannot be renamed, and the name [z]
    after it is not processed. *)
Lemma first_error_ends_the_run_clash :
  let fl := flags true false false false in
  let st := initial clash "NFC" in
  range_names 3 fl [e_decomposed; "z"] st
  = (fst (process 3 fl e_decomposed st),
     Returned (Some (rename_error e_decomposed e_composed "not a directory"))).
Proof.
  intros fl st.
  refine (proj1 (proj2 (proj2 (proj2 (proj2 (first_error_ends_the_run 3 fl)))))
            [] e_decomposed ["z"] st st _ _ _ _).
  - reflexivity.
  - vm_compute. reflexivity.
Defined.

(** C7 on [tree]. *)
Lemma dry_run_leaves_file_system_tree :
  fs (fst (run 10 (flags true false true true) [e_decomposed] (initial tree "mac")))
  = tree.
Proof.
  refine (proj2 (dry_run_leaves_file_system 10 (flags true false true true)
                   [e_decomposed] "" (initial tree "mac") _)).
  reflexivity.
Defined.

(** C9: the selector [nfkc]. *)
Lemma form_selector_nfkc :
  let fl := flags true false true false in
  let st := initial tree "nfkc" in
  run 10 fl [e_decomposed] st
  = range_args 10 fl [e_decomposed] (set_formCode NFKC (set_formName "NFKC" st)).
Proof.
  intros fl st.
  refine (proj1 (form_selector 10 fl [e_decomposed] st) "NFKC" NFKC _ _).
  - unfold form_names. do 4 apply list_elem_of_further. apply list_elem_of_here.
  - reflexivity.
Defined.

(** C9: a selector that is none of the six values. *)
Example form_selector_invalid :
  run 10 (flags true false false false) [e_decomposed] (initial tree "utf8")
  = (initial tree "UTF8", Returned (Some "invalid normalization form")).
Proof. reflexivity. Qed.

(** C10: the top directory of [tree] given with a trailing separator; its
    base name is not in form NFC. *)
Lemma trailing_separator_is_left_alone_top :
  let fl := flags false false false false in
  let st := initial tree "NFC" in
  let p := e_decomposed +:+ "/" in
  rename_entry fl p st = (st, inr (e_decomposed, p)).
Proof.
  intros fl st p.
  refine (proj1 (proj2 (trailing_separator_is_left_alone fl e_decomposed st _))).
  reflexivity.
Defined.

End Runs.

(** ** Further runs on the sample file system *)

Section MoreRuns.
Import Sample.

(** X1 on [tree]: a quiet real run. *)
Lemma quiet_prints_nothing_tree :
  stdout (fst (run 10 (flags true true false false) [e_decomposed]
                 (initial tree "NFC"))) = [].
Proof.
  refine (proj2 (quiet_prints_nothing 10 (flags true true false false)
                   [e_decomposed] "" (initial tree "NFC") _)).
  reflexivity.
Defined.

(** X2 on [tree]: a run that prints new paths and a quiet run with
    [-both]. *)
Lemma output_flags_change_output_only_tree :
  let st := initial tree "NFC" in
  mute (fst (run 10 (flags true false false false) [e_decomposed] st))
  = mute (fst (run 10 (flags true true false true) [e_decomposed] st))
  /\ snd (run 10 (flags true false false false) [e_decomposed] st)
     = snd (run 10 (flags true true false true) [e_decomposed] st).
Proof.
  intros st.
  refine (proj2 (output_flags_change_output_only 10
                   (flags true false false false) (flags true true false true)
                   [e_decomposed] "" st st _ _ _)); reflexivity.
Defined.

(** X3 on [tree], with [-both]. *)
Lemma counter_counts_messages_tree :
  let r := run 10 (flags true false false true) [e_decomposed] (initial tree "NFC") in
  exists messages,
    stdout (fst r) = [] ++ messages
    /\ fileCount (fst r) = wrap_int (0 + Z.of_nat (length messages)).
Proof.
  refine (proj2 (counter_counts_messages 10 (flags true false false true)
                   [e_decomposed] "" (initial tree "NFC") _ _)); reflexivity.
Defined.

(** X4 on [tree]. *)
Lemma empty_value_means_missing_key_tree :
  no_empty_value
    (dirFixed (fst (run 10 (flags true false true false) [e_decomposed]
                      (initial tree "NFC")))).
Proof.
  refine (proj1 (proj2 (empty_value_means_missing_key 10
                          (flags true false true false) [e_decomposed] ""
                          (initial tree "NFC") _))).
  intros k v H. change (dirFixed (initial tree "NFC")) with (∅ : gmap string string) in H.
  rewrite lookup_empty in H. discriminate.
Defined.

(** X5 on [tree], from a map that holds the key [old/]. *)
Lemma dirFixed_keeps_its_keys_tree :
  let st := record_dir "old" "new" (initial tree "NFC") in
  is_Some (dirFixed (fst (run 10 (flags true false false false) [e_decomposed] st))
           !! "old/").
Proof.
  intros st.
  refine (proj2 (dirFixed_keeps_its_keys 10 (flags true false false false)
                   [e_decomposed] "" st "old/" _)).
  exists "new/". vm_compute. reflexivity.
Defined.

(** X6 on [tree], with the selector [mac]. *)
Lemma form_is_fixed_for_the_run_tree :
  let r := run 10 (flags true false false false) [e_composed] (initial tree "mac") in
  formCode (fst r) = NFD /\ formName (fst r) = "MAC".
Proof.
  refine (proj2 (form_is_fixed_for_the_run 10 (flags true false false false)
                   [e_composed] "" (initial tree "mac") NFD _)).
  reflexivity.
Defined.

(** X7 on [tree]: two names that do not exist. *)
Lemma unmatched_patterns_are_skipped_tree :
  run 10 (flags true false false false) ["missing"; "gone"] (initial tree "nfc")
  = (initial tree "NFC", Returned None).
Proof.
  refine (unmatched_patterns_are_skipped 10 (flags true false false false)
            ["missing"; "gone"] (initial tree "nfc") NFC _ _).
  - reflexivity.
  - repeat constructor.
Defined.

(** X8 on [tree]: a pattern the table does not answer, before a name that
    exists. *)
Lemma glob_error_ends_the_run_tree :
  run 10 (flags true false false false) ["[a"; e_decomposed] (initial tree "NFC")
  = (initial tree "NFC", Returned (Some "pattern outside the table's fragment")).
Proof.
  refine (glob_error_ends_the_run 10 (flags true false false false)
            [] "[a" [e_decomposed] (initial tree "NFC") NFC
            (initial tree "NFC") _ _ _ _); reflexivity.
Defined.

(** X9 on [tree]: no [-form], on [darwin]. *)
Lemma default_form_is_accepted_darwin :
  let cl := {| form_option := None;
               flags_given := flags true false true false;
               positional := [e_composed] |} in
  run 10 (flags_given cl) (positional cl) (start "darwin" cl tree)
  = range_args 10 (flags_given cl) (positional cl)
      (set_formCode NFD (start "darwin" cl tree)).
Proof.
  intros cl.
  refine (default_form_is_accepted 10 "darwin" cl tree _). reflexivity.
Defined.


(** X11 on [tree]: the selector [utf8]. *)
Lemma main_rejects_invalid_form_tree :
  let cl := {| form_option := Some "utf8";
               flags_given := flags true false false false;
               positional := [e_decomposed] |} in
  exists st',
    main 5 "linux" (Parsed cl) tree
    = (st', [Line ("invalid normalization form" +:+ nl)], Some 1%Z)
    /\ fs st' = tree /\ stdout st' = [] /\ dirFixed st' = ∅
    /\ fileCount st' = 0%Z.
Proof.
  intros cl.
  refine (proj1 (main_rejects_invalid_form 5 "linux" cl tree "utf8" _ _) _).
  - reflexivity.
  - reflexivity.
  - discriminate.
Defined.

(** X12: a path with a doubled separator and a [.] element. *)
Lemma dir_key_ignores_spelling_sample :
  dir_key (Path.Clean "a//b/./c") = dir_key "a//b/./c"
  /\ dir_key ("a//b/./c" +:+ Path.sep) = dir_key "a//b/./c".
Proof.
  split.
  - refine (proj1 (dir_key_ignores_spelling "a//b/./c") _). discriminate.
  - refine (proj1 (proj2 (dir_key_ignores_spelling "a//b/./c")) _). discriminate.
Defined.

(** X13: the directory [x] of [tree] and its file. *)
Lemma child_path_splits_at_directory_key_tree :
  let a := e_decomposed +:+ "/x" in
  let c := e_decomposed +:+ ".txt" in
  Path.Split (Path.Join [a; c]) = (dir_key a, c)
  /\ Path.Join [a; c] = dir_key a +:+ c.
Proof.
  intros a c.
  refine (child_path_splits_at_directory_key a c _ _ _).
  - discriminate.
  - vm_compute. discriminate.
  - reflexivity.
Defined.

(** X14 on [tree]: the dry run on a system that refuses every rename. *)
Lemma dry_run_never_calls_rename_tree :
  let fl := flags true false true false in
  @run Table read_only_os fragment 10 fl [e_decomposed] (initial tree "NFC")
  = @run Table table_os fragment 10 fl [e_decomposed] (initial tree "NFC").
Proof.
  intros fl.
  refine (proj2 (@dry_run_never_calls_rename Table table_os fragment
                   read_only_os 10 fl [e_decomposed] "" (initial tree "NFC")
                   _ _ _ _)).
  - reflexivity.
  - reflexivity.
  - reflexivity.
  - reflexivity.
Defined.

(** X15 on [tree]: without [-r], on a system that cannot list. *)
Lemma without_recursion_only_the_entry_tree :
  let fl := flags false false false false in
  @process Table unlistable_os fragment 4 fl e_decomposed (initial tree "NFC")
  = @process Table table_os fragment 4 fl e_decomposed (initial tree "NFC").
Proof.
  intros fl.
  refine (proj2 (proj2 (proj2
            (@without_recursion_only_the_entry Table table_os fragment
               3 fl e_decomposed (initial tree "NFC") _)))
            unlistable_os _ _).
  - reflexivity.
  - reflexivity.
  - reflexivity.
Defined.

(** X16 on [tree]: the top directory, without [-r]. *)
Lemma dry_run_agrees_for_one_entry_tree :
  let fl := flags false false false false in
  let dry := process 3 (set_dryrun true fl) e_decomposed (initial tree "NFC") in
  let real := process 3 (set_dryrun false fl) e_decomposed (initial tree "NFC") in
  stdout (fst dry) = stdout (fst real)
  /\ fileCount (fst dry) = fileCount (fst real)
  /\ fs (fst dry) = tree
  /\ (snd real = Returned None ->
      snd dry = Returned None /\ dirFixed (fst dry) = dirFixed (fst real)).
Proof.
  refine (dry_run_agrees_for_one_entry 3 (flags false false false false)
            e_decomposed (initial tree "NFC") _).
  reflexivity.
Defined.

(** X17 on [tree]. *)
Lemma dirFixed_differs_for_changed_names_only_tree :
  changes_only NFC
    (dirFixed (fst (run 10 (flags true false true false) [e_decomposed]
                      (initial tree "nfc")))).
Proof.
  refine (dirFixed_differs_for_changed_names_only 10
            (flags true false true false) [e_decomposed] (initial tree "nfc")
            NFC _ _ _ _ _).
  - reflexivity.
  - reflexivity.
  - reflexivity.
  - reflexivity.
  - apply changes_only_empty.
Defined.

End MoreRuns.
